(** * etcd-leader: the election cycle of [leader.go], embedded and verified

    The development follows the source file top to bottom:
    - the structs [State], [EtcdResponse], [Node], [Option], [EtcdClient];
    - the client methods [MakeURL], [Get], [Put], [Delete], [request], down
      to the form body that [url.Values.Encode] produces;
    - one election cycle, [loop], as a program over the calls it makes
      (store calls, [rand.Float32], [time.Sleep], console output);
    - the [float32] arithmetic of the jittered sleep, on the IEEE 754
      binary32 instance of the Standard Library's [SpecFloat]. *)

From Stdlib Require Import ZArith Lia String Ascii List DecimalString.
From Stdlib Require Import Floats.SpecFloat.
From Stdlib Require DecimalZ.
From stdpp Require Import gmap strings list sorting.

Open Scope Z_scope.

(** ** Machine integers and durations *)

(** Go's [int] and [int64] on a 64-bit target: two's complement, wrapping. *)
Module Int64.
Definition min_int : Z := - 2 ^ 63.
Definition max_int : Z := 2 ^ 63 - 1.
Definition in_range (z : Z) : Prop := min_int <= z <= max_int.
Definition wrap (z : Z) : Z := (z + 2 ^ 63) mod 2 ^ 64 - 2 ^ 63.
Definition mul (a b : Z) : Z := wrap (a * b).
(** [a / b] truncates toward zero; with the positive constant divisors
    of the source it cannot overflow. *)
Definition div (a b : Z) : Z := Z.quot a b.
End Int64.

(** [time.Duration] is an [int64] count of nanoseconds. *)
Definition Duration := Z.
Definition Second : Duration := 1000000000.

(** A Go [error] value, represented by the text [err.Error()] returns. *)
Definition error := string.

(** ** float32 *)

(** IEEE 754 binary32: 24 bits of precision, infinities at exponent 128. *)
Module F32.
Definition prec : Z := 24.
Definition emax : Z := 128.
Definition float32 := spec_float.

Definition valid (x : float32) : bool := valid_binary prec emax x.
Definition add : float32 -> float32 -> float32 := SFadd prec emax.
Definition mul : float32 -> float32 -> float32 := SFmul prec emax.
Definition ltb : float32 -> float32 -> bool := SFltb.
Definition leb : float32 -> float32 -> bool := SFleb.

(** The float32 nearest to [m * 2^e] (ties to even): how an untyped
    constant such as [0.5] becomes a float32. *)
Definition lit (m e : Z) : float32 := binary_normalize prec emax m e false.

(** [float32(i)] for an integer [i]: round to nearest, ties to even. *)
Definition of_int64 (i : Z) : float32 := binary_normalize prec emax i 0 false.

(** [int64(x)]: the fraction is discarded.  For a value outside int64, and
    for infinities and NaN, Go leaves the result to the implementation;
    the amd64 conversion instruction yields the smallest int64. *)
Definition to_int64 (x : float32) : Z :=
  match x with
  | S754_zero _ => 0
  | S754_finite s m e =>
      let a := if 0 <=? e then Z.pos m * 2 ^ e else Z.pos m / 2 ^ (- e) in
      let v := if s then - a else a in
      if (Int64.min_int <=? v) && (v <=? Int64.max_int) then v else Int64.min_int
  | _ => Int64.min_int
  end.

Definition zero : float32 := S754_zero false.
Definition half : float32 := lit 1 (-1).
Definition quarter : float32 := lit 1 (-2).
Definition one : float32 := lit 1 0.
Definition three_halves : float32 := lit 3 (-1).

(** What [rand.Float32] may return: a float32 of the half-open interval
    [[0.0, 1.0)]. *)
Definition unit_interval (u : float32) : Prop :=
  valid u = true /\ leb zero u = true /\ ltb u one = true.

(** Whether the number [x] stands for is below the fraction [p / q]: the
    comparison of the values themselves, with no float32 constant in it.
    Minus infinity is below every fraction; plus infinity and NaN are below
    none. *)
Definition below (x : float32) (p : Z) (q : positive) : bool :=
  match x with
  | S754_zero _ => 0 <? p
  | S754_infinity s => s
  | S754_nan => false
  | S754_finite s m e =>
      let n := if s then Z.neg m else Z.pos m in
      if 0 <=? e then n * 2 ^ e * Z.pos q <? p
      else n * Z.pos q <? p * 2 ^ (- e)
  end.

(** The integers float32 holds exactly: converting there and back gives
    the integer again. *)
Definition exact (z : Z) : bool := to_int64 (of_int64 z) =? z.

(** The shift register of [SpecFloat] after [n] shifts of [m >= 0]: the
    quotient by [2^n], the last bit shifted out, and whether any bit
    shifted out before it was set. *)
Definition shifted (m : Z) (n : nat) : shr_record :=
  Build_shr_record (m / 2 ^ Z.of_nat n)
    (match n with O => false | S n' => Z.testbit m (Z.of_nat n') end)
    (match n with O => false | S n' => negb (m mod 2 ^ Z.of_nat n' =? 0) end).
End F32.
Abbreviation float32 := F32.float32.

(** ** The structs of the source *)

Record State := mkState {
  key : string;
  id : string;
  leader : bool;
  ttl : Duration
}.

Record Node := mkNode {
  CreatedIndex : Z;
  Key : string;
  ModifiedIndex : Z;
  Value : string
}.

(** The field [Node] of the source is the projection [node] here, the type
    and the field cannot share a name. *)
Record EtcdResponse := mkEtcdResponse {
  ErrorCode : Z;
  Message : string;
  Action : string;
  node : Node
}.

(** [Option] of the source; its field [ttl] lives in a module of its own
    because [State] has a field of the same name. *)
Module Option.
Record t := mk {
  ttl : Duration;
  wait : bool;
  prevExist : Z;
  prevIndex : Z
}.
(** The zero value [Option{}]. *)
Definition zero : t := mk 0 false 0 0.
End Option.

(** [EtcdClient]: the field [client] is the HTTP transport, which is the
    environment answering the [Do] event below. *)
Record EtcdClient := mkEtcdClient { baseUrl : string }.


(** ** Programs over the calls they make *)

(** A program is a tree: it returns, or makes a call [e] of the interface
    [E] and goes on with the answer.  One cycle of the election loop makes
    finitely many calls, so the tree is inductive. *)
Inductive Prog (E : Type -> Type) (R : Type) : Type :=
| Ret (r : R)
| Vis (X : Type) (e : E X) (k : X -> Prog E R).
Arguments Ret {E R} r.
Arguments Vis {E R X} e k.

Fixpoint bind {E A B} (m : Prog E A) (f : A -> Prog E B) : Prog E B :=
  match m with
  | Ret a => f a
  | Vis e k => Vis e (fun x => bind (k x) f)
  end.

#[export] Instance Prog_ret {E} : MRet (Prog E) := fun _ => Ret.
#[export] Instance Prog_bind {E} : MBind (Prog E) := fun _ _ f m => bind m f.

Definition trigger {E X} (e : E X) : Prog E X := Vis e Ret.

(** Running a program against a handler that answers each call and threads
    a state of the environment. *)
Fixpoint interp_state {E S R} (h : forall X, E X -> S -> S * X)
    (p : Prog E R) (s : S) : S * R :=
  match p with
  | Ret r => (s, r)
  | Vis e k => let '(s', x) := h _ e s in interp_state h (k x) s'
  end.

(** ** The HTTP side of the client *)

(** [url.Values]: a map from a field name to the values added under it. *)
Abbreviation Values := (gmap string (list string)).

Definition Add (k v : string) (vs : Values) : Values :=
  <[k := default [] (vs !! k) ++ [v]]> vs.

(** [url.QueryEscape]: letters, digits and [-_.~] stay, a space becomes
    [+], any other byte becomes [%XX] in upper-case hexadecimal. *)
Definition shouldEscape (c : ascii) : bool :=
  let n := nat_of_ascii c in
  negb (((97 <=? n) && (n <=? 122) || (65 <=? n) && (n <=? 90)
         || (48 <=? n) && (n <=? 57))%nat
        || Ascii.eqb c "-" || Ascii.eqb c "_" || Ascii.eqb c "."
        || Ascii.eqb c "~").

Definition upperhex (n : nat) : ascii :=
  default "0"%char (String.get n "0123456789ABCDEF").

Fixpoint QueryEscape (s : string) : string :=
  match s with
  | EmptyString => EmptyString
  | String c s' =>
      if shouldEscape c then
        if Ascii.eqb c " " then String "+" (QueryEscape s')
        else String "%" (String (upperhex (nat_of_ascii c / 16))
               (String (upperhex (nat_of_ascii c mod 16)) (QueryEscape s')))
      else String c (QueryEscape s')
  end.

(** The keys of a form in the byte order [Encode] sorts them in. *)
Definition sorted_keys (vs : Values) : list string :=
  merge_sort (fun a b => Is_true (String.leb a b)) (elements (dom vs)).

(** The [name=value] fields of the encoded form, in order. *)
Definition Encode_fields (vs : Values) : list string :=
  k ← sorted_keys vs;
  v ← default [] (vs !! k);
  [QueryEscape k +:+ "=" +:+ QueryEscape v].

(** [Values.Encode]: the fields joined by [&]. *)
Definition Encode (vs : Values) : string :=
  String.concat "&" (Encode_fields vs).

(** [strconv.Itoa]. *)
Definition Itoa (i : Z) : string := NilZero.string_of_int (Z.to_int i).

(** [http.Header], and [Header.Set] for a key in canonical form. *)
Abbreviation Header := (gmap string (list string)).

Record Request := mkRequest {
  Method : string;
  URL : string;
  Body : option string;
  Headers : Header
}.

(** An HTTP response as [request] uses it: what reading its body to the
    end yields. *)
Record Response := mkResponse { ReadAll : error + string }.

(** The one call the client makes on its environment: [c.client.Do]. *)
Inductive HttpE : Type -> Type :=
| Do (req : Request) : HttpE (error + Response).

Section Client.
(** Two functions of Go's library are parameters: the error, if any,
    that [url.Parse] reports for the URL handed to [http.NewRequest],
    and [json.Unmarshal] into a fresh [EtcdResponse]. *)
Variable url_Parse_error : string -> option error.
Variable json_Unmarshal : string -> error + EtcdResponse.

Definition NewRequest (method url : string) (body : option string)
    : error + Request :=
  match url_Parse_error url with
  | Some err => inl err
  | None => inr (mkRequest method url body ∅)
  end.

Definition Header_Set (k v : string) (req : Request) : Request :=
  mkRequest (Method req) (URL req) (Body req) (<[k := [v]]> (Headers req)).

Definition MakeURL (c : EtcdClient) (key : string) : string :=
  baseUrl c +:+ "/v2/keys/" +:+ key.

Definition request (c : EtcdClient) (req : Request)
    : Prog HttpE (error + EtcdResponse) :=
  r ← trigger (Do req);
  match r with
  | inl err => mret (inl err)
  | inr resp =>
      match ReadAll resp with
      | inl err => mret (inl err)
      | inr body =>
          match json_Unmarshal body with
          | inl err => mret (inl err)
          | inr response => mret (inr response)
          end
      end
  end.

Definition Get (c : EtcdClient) (key : string) (option : Option.t)
    : Prog HttpE (error + EtcdResponse) :=
  let query : Values :=
    if Option.wait option then Add "wait" "true" ∅ else ∅ in
  match NewRequest "GET" (MakeURL c key +:+ "?" +:+ Encode query) None with
  | inl err => mret (inl err)
  | inr req => request c req
  end.

(** The form [Put] fills in before it encodes it (lines 68 to 82). *)
Definition Put_values (value : string) (option : Option.t) : Values :=
  let values : Values := Add "value" value ∅ in
  let values :=
    if Option.ttl option =? 0 then values
    else Add "ttl" (Itoa (Int64.div (Option.ttl option) Second)) values in
  let values :=
    if Option.prevExist option =? 1 then Add "prevExist" "true" values
    else if Option.prevExist option =? -1 then Add "prevExist" "false" values
    else values in
  if Option.prevIndex option =? 0 then values
  else Add "prevIndex" (Itoa (Option.prevIndex option)) values.

Definition Put (c : EtcdClient) (key value : string) (option : Option.t)
    : Prog HttpE (error + EtcdResponse) :=
  let body := Encode (Put_values value option) in
  match NewRequest "PUT" (MakeURL c key) (Some body) with
  | inl err => mret (inl err)
  | inr req =>
      request c (Header_Set "Content-Type"
                   "application/x-www-form-urlencoded; param=value" req)
  end.

Definition Delete (c : EtcdClient) (key value : string) (option : Option.t)
    : Prog HttpE (error + EtcdResponse) :=
  match NewRequest "DELETE" (MakeURL c key) None with
  | inl err => mret (inl err)
  | inr req => request c req
  end.
End Client.

(** ** The election actor *)

(** The calls [loop] makes on the client, by method and arguments. *)
Inductive StoreCall : Type :=
| CallGet (key : string) (option : Option.t)
| CallPut (key value : string) (option : Option.t)
| CallDelete (key value : string) (option : Option.t).

Inductive StoreE : Type -> Type :=
| Call (c : StoreCall) : StoreE (error + EtcdResponse).

(** The other calls of [loop]: [rand.Float32], [time.Sleep], and the
    console line its closure [print] writes (the environment fills in the
    time stamp). *)
Inductive EnvE : Type -> Type :=
| Float32 : EnvE float32
| Sleep (d : Duration) : EnvE unit
| Printf (actor format : string) (args : list string) : EnvE unit.

Variant sumE (E F : Type -> Type) : Type -> Type :=
| inlE {X} (e : E X) : sumE E F X
| inrE {X} (f : F X) : sumE E F X.
Arguments inlE {E F X} e.
Arguments inrE {E F X} f.

Abbreviation ActorE := (sumE StoreE EnvE).

Definition client_Get (key : string) (option : Option.t)
    : Prog ActorE (error + EtcdResponse) :=
  trigger (inlE (Call (CallGet key option))).
Definition client_Put (key value : string) (option : Option.t)
    : Prog ActorE (error + EtcdResponse) :=
  trigger (inlE (Call (CallPut key value option))).
Definition rand_Float32 : Prog ActorE float32 := trigger (inrE Float32).
Definition time_Sleep (d : Duration) : Prog ActorE unit :=
  trigger (inrE (Sleep d)).
Definition print (state : State) (format : string) (args : list string)
    : Prog ActorE unit :=
  trigger (inrE (Printf (id state) format args)).

(** Line 211:
    [time.Duration(float32(state.ttl/4) * (0.5 + rand.Float32()))],
    for the draw [u]. *)
Definition sleepDuration (ttl : Duration) (u : float32) : Duration :=
  F32.to_int64 (F32.mul (F32.of_int64 (Int64.div ttl 4)) (F32.add F32.half u)).

(** Lines 211 to 213, the tail every branch reaches that did not return. *)
Definition sleep_and_continue (state : State) : Prog ActorE (State * bool) :=
  u ← rand_Float32;
  _ ← time_Sleep (sleepDuration (ttl state) u);
  mret (state, true).

Definition set_leader (b : bool) (state : State) : State :=
  mkState (key state) (id state) b (ttl state).

(** [loop]: one cycle.  The state behind the pointer is threaded through:
    the result is the state after the cycle and the boolean returned. *)
Definition loop (state : State) : Prog ActorE (State * bool) :=
  let leaderKey := key state +:+ "-leader" in
  let broadcastKey := key state +:+ "-broadcast" in
  r ← client_Get leaderKey (Option.mk 0 false 0 0);
  match r with
  | inl err => _ ← print state "error: %s" [err]; mret (state, false)
  | inr resp =>
    if ErrorCode resp =? 100 then
      r ← client_Put leaderKey (id state) (Option.mk 0 false (-1) 0);
      match r with
      | inl err => _ ← print state "error: %s" [err]; mret (state, false)
      | inr resp =>
        if ErrorCode resp =? 0 then
          _ ← print state "-> gain" [];
          r ← client_Put broadcastKey (id state) Option.zero;
          match r with
          | inl err => _ ← print state "error: %s" [err]; mret (state, false)
          | inr _ => sleep_and_continue (set_leader true state)
          end
        else
          _ ← print state "-x failed" [];
          sleep_and_continue state
      end
    else if ErrorCode resp =? 0 then
      if String.eqb (Value (node resp)) (id state) then
        u ← rand_Float32;
        _ ← (if F32.ltb u F32.quarter then
               _ ← print state "-- give up" [];
               time_Sleep (Int64.mul (ttl state) 10)
             else mret tt);
        r ← client_Put leaderKey (id state)
              (Option.mk (ttl state) false 0 (ModifiedIndex (node resp)));
        match r with
        | inl err => _ ← print state "error: %s" [err]; mret (state, false)
        | inr resp =>
          if ErrorCode resp =? 0 then
            r ← client_Put broadcastKey (id state) (Option.mk 0 false (-1) 0);
            match r with
            | inl err => _ ← print state "error: %s" [err]; mret (state, false)
            | inr _ => sleep_and_continue state
            end
          else sleep_and_continue (set_leader false state)
        end
      else sleep_and_continue state
    else sleep_and_continue state
  end.

(** [run], for the state it builds and at most [n] cycles of its loop
    [for success := true; success; success = loop(&state, client)]. *)
Definition initial_state (shard : string) (i : Z) : State :=
  mkState shard (Itoa i) false (Int64.mul Second 1).

Fixpoint cycles (n : nat) (state : State) : Prog ActorE State :=
  match n with
  | O => mret state
  | S n' =>
      '(state', success) ← loop state;
      if success : bool then cycles n' state' else mret state'
  end.

(** Linking the actor with the client: every call on the store becomes the
    client method of that name. *)
Section Link.
Variable url_Parse_error : string -> option error.
Variable json_Unmarshal : string -> error + EtcdResponse.
Variable client : EtcdClient.

Fixpoint inject {R} (p : Prog HttpE R) : Prog (sumE HttpE EnvE) R :=
  match p with
  | Ret r => Ret r
  | Vis e k => Vis (inlE e) (fun x => inject (k x))
  end.

Definition method (c : StoreCall) : Prog HttpE (error + EtcdResponse) :=
  match c with
  | CallGet key option =>
      Get url_Parse_error json_Unmarshal client key option
  | CallPut key value option =>
      Put url_Parse_error json_Unmarshal client key value option
  | CallDelete key value option =>
      Delete url_Parse_error json_Unmarshal client key value option
  end.

Definition dispatch {X} (e : StoreE X) : Prog HttpE X :=
  match e with
  | Call c => method c
  end.

Fixpoint link {R} (p : Prog ActorE R) : Prog (sumE HttpE EnvE) R :=
  match p with
  | Ret r => Ret r
  | Vis e k =>
      match e in sumE _ _ X return (X -> Prog (sumE HttpE EnvE) R) -> _ with
      | inlE e' => fun k' => bind (inject (dispatch e')) k'
      | inrE f => fun k' => Vis (inrE f) k'
      end (fun x => link (k x))
  end.
End Link.

(** ** Running a cycle against an environment *)

(** What the environment answers: the outcome of the [n]-th call on the
    store (a Go [error], or the decoded response), and the [n]-th draw of
    the random source. *)
Record World := mkWorld {
  store : nat -> StoreCall -> error + EtcdResponse;
  float32s : nat -> float32
}.

(** What an observer of the actor sees, in order. *)
Inductive Obs : Type :=
| OStore (c : StoreCall) (r : error + EtcdResponse)
| ORand (u : float32)
| OSleep (d : Duration)
| OPrint (actor format : string) (args : list string).

Record Run := mkRun {
  calls : nat;
  draws : nat;
  trace : list Obs
}.

Definition answer_store (w : World) {X} (e : StoreE X) (r : Run) : Run * X :=
  match e with
  | Call c =>
      let a := store w (calls r) c in
      (mkRun (S (calls r)) (draws r) (trace r ++ [OStore c a]), a)
  end.

Definition answer_env (w : World) {X} (e : EnvE X) (r : Run) : Run * X :=
  match e with
  | Float32 =>
      let u := float32s w (draws r) in
      (mkRun (calls r) (S (draws r)) (trace r ++ [ORand u]), u)
  | Sleep d => (mkRun (calls r) (draws r) (trace r ++ [OSleep d]), tt)
  | Printf a f args =>
      (mkRun (calls r) (draws r) (trace r ++ [OPrint a f args]), tt)
  end.

Definition answer (w : World) (X : Type) (e : ActorE X) (r : Run) : Run * X :=
  match e with
  | inlE e' => answer_store w e' r
  | inrE f => answer_env w f r
  end.

Definition start : Run := mkRun 0 0 [].

(** One cycle from [state] in the world [w]: what was observed, the state
    afterwards, and the boolean [loop] returned, on which the loop of
    [run] goes on. *)
Record Outcome := mkOutcome {
  observed : list Obs;
  final : State;
  continues : bool
}.

Definition cycle (w : World) (state : State) : Outcome :=
  let '(r, (state', success)) := interp_state (answer w) (loop state) start in
  mkOutcome (trace r) state' success.

(** The observations that are a [Put] on the key [k], and those that are a
    write (a [Put] or a [Delete]) on any key. *)
Definition is_put_on (k : string) (o : Obs) : bool :=
  match o with
  | OStore (CallPut k' _ _) _ => String.eqb k' k
  | _ => false
  end.

Definition is_write (o : Obs) : bool :=
  match o with
  | OStore (CallPut _ _ _) _ | OStore (CallDelete _ _ _) _ => true
  | _ => false
  end.

(** The observations in which a call on the store came back with a Go
    [error] instead of a response. *)
Definition is_transport_error (o : Obs) : bool :=
  match o with
  | OStore _ (inl _) => true
  | _ => false
  end.

(** Worlds given by the lists of their first answers. *)
Definition world_of (answers : list (error + EtcdResponse)) (us : list float32)
    : World :=
  mkWorld (fun n _ => nth n answers (inl "connection refused"%string))
          (fun n => nth n us F32.zero).



(** Inputs used to run the model: the state [run] builds for actor 7 of
    the shard of [main], and a few floats of the unit interval. *)
Module Examples.
Definition actor7 : State := initial_state "shard-5" 7.
Definition leader7 : State := set_leader true actor7.
Definition absent : EtcdResponse :=
  mkEtcdResponse 100 "Key not found" "" (mkNode 0 "" 0 "").
Definition held_by (value : string) (index : Z) : EtcdResponse :=
  mkEtcdResponse 0 "" "get" (mkNode 3 "/shard-5-leader" index value).
Definition written (value : string) (index : Z) : EtcdResponse :=
  mkEtcdResponse 0 "" "set" (mkNode index "/shard-5-leader" index value).
Definition refused (code : Z) : EtcdResponse :=
  mkEtcdResponse code "Compare failed" "" (mkNode 0 "" 0 "").
(** 0.125, 0.75 and the largest float32 below 1. *)
Definition eighth : float32 := F32.lit 1 (-3).
Definition three_quarters : float32 := F32.lit 3 (-2).
Definition below_one : float32 := F32.lit (2 ^ 24 - 1) (-24).
End Examples.

(** ** Running a client method against a transport *)

(** The transport answers the [n]-th request sent through it. *)
Definition http_answer (net : nat -> Request -> error + Response)
    (X : Type) (e : HttpE X) (sent : list Request) : list Request * X :=
  match e with
  | Do req => (sent ++ [req], net (length sent) req)
  end.

(** The requests a client program sends, in order, and what it returns. *)
Definition send {R} (net : nat -> Request -> error + Response)
    (p : Prog HttpE R) : list Request * R :=
  interp_state (http_answer net) p [].

(** The URL a call on the store is sent to. *)
Definition url_of (c : EtcdClient) (call : StoreCall) : string :=
  match call with
  | CallGet k o =>
      MakeURL c k +:+ (if Option.wait o then "?wait=true" else "?")
  | CallPut k _ _ | CallDelete k _ _ => MakeURL c k
  end.

(** The request a call on the store builds, when its URL parses. *)
Definition request_of (c : EtcdClient) (call : StoreCall) : Request :=
  match call with
  | CallGet _ _ => mkRequest "GET" (url_of c call) None ∅
  | CallPut _ v o =>
      Header_Set "Content-Type"
        "application/x-www-form-urlencoded; param=value"
        (mkRequest "PUT" (url_of c call) (Some (Encode (Put_values v o))) ∅)
  | CallDelete _ _ _ => mkRequest "DELETE" (url_of c call) None ∅
  end.

(** How often the byte [c] occurs in [s]. *)
Fixpoint occurrences (c : ascii) (s : string) : nat :=
  match s with
  | EmptyString => O
  | String c' s' => ((if Ascii.eqb c' c then 1 else 0) + occurrences c s')%nat
  end.

(** ** Several cycles *)

(** The world as it is after [c] calls on the store and [d] draws. *)
Definition shift (w : World) (c d : nat) : World :=
  mkWorld (fun n => store w (c + n)%nat) (fun n => float32s w (d + n)%nat).

(** The loop of [run] for at most [n] cycles, from the beginning of the
    world: everything observed, and the state at the end. *)
Definition run_actor (w : World) (n : nat) (state : State) : Run * State :=
  interp_state (answer w) (cycles n state) start.

(** The store calls and draws one cycle consumes. *)
Definition consumed (w : World) (state : State) : nat * nat :=
  let r := fst (interp_state (answer w) (loop state) start) in
  (calls r, draws r).

(** The store calls an actor in [state] may be seen to make: the [Get] of
    its leader key without [wait], and a [Put] of its own id on its leader
    key or its broadcast key. *)
Definition own_call (state : State) (o : Obs) : Prop :=
  match o with
  | OStore (CallGet k opt) _ =>
      k = key state +:+ "-leader" /\ opt = Option.mk 0 false 0 0
  | OStore (CallPut k v _) _ =>
      v = id state
      /\ (k = key state +:+ "-leader" \/ k = key state +:+ "-broadcast")
  | OStore (CallDelete _ _ _) _ => False
  | _ => True
  end.

(** The sleeps of an actor with the lease [lease]: the injected stall of
    ten leases, or a pause between one eighth and three eighths of the
    lease. *)
Definition sleep_ok (lease : Duration) (o : Obs) : Prop :=
  match o with
  | OSleep d => d = 10 * lease \/ lease <= 8 * d <= 3 * lease
  | _ => True
  end.

Definition is_get (o : Obs) : bool :=
  match o with
  | OStore (CallGet _ _) _ => true
  | _ => false
  end.

Definition is_draw (o : Obs) : bool :=
  match o with
  | ORand _ => true
  | _ => false
  end.

(** * Properties *)

(** ** Machine integers *)

Lemma wrap_in_range (z : Z) : Int64.in_range z -> Int64.wrap z = z.
Proof.
  unfold Int64.in_range, Int64.wrap, Int64.min_int, Int64.max_int.
  intros H. rewrite Z.mod_small; lia.
Qed.

(** ** One cycle, branch by branch *)

Arguments sleepDuration : simpl never.
Arguments Int64.mul : simpl never.
Arguments F32.ltb : simpl never.
Arguments F32.quarter : simpl never.
Arguments String.eqb : simpl never.
Arguments Z.eqb : simpl never.

(** Unfolds the cycle and replaces each answer of the world, and each test
    on it, by what the hypotheses say. *)
Ltac run_cycle :=
  unfold cycle, loop; cbn;
  repeat (match goal with
          | H : store _ _ _ = _ |- _ => rewrite H
          | H : (_ =? _) = _ |- _ => rewrite H
          | H : String.eqb _ _ = _ |- _ => rewrite H
          | H : F32.ltb _ _ = _ |- _ => rewrite H
          end; cbn);
  try reflexivity.

Lemma code_neq (r : EtcdResponse) (c : Z) :
  ErrorCode r <> c -> (ErrorCode r =? c) = false.
Proof. apply Z.eqb_neq. Qed.

Lemma code_eq (r : EtcdResponse) (c : Z) :
  ErrorCode r = c -> (ErrorCode r =? c) = true.
Proof. apply Z.eqb_eq. Qed.

Section Cycle.
Variable w : World.
Variable st : State.

Let leaderKey := key st +:+ "-leader".
Let broadcastKey := key st +:+ "-broadcast".
Let get := CallGet leaderKey (Option.mk 0 false 0 0).
Let acquire := CallPut leaderKey (id st) (Option.mk 0 false (-1) 0).
Let renew (resp : EtcdResponse) :=
  CallPut leaderKey (id st)
    (Option.mk (ttl st) false 0 (ModifiedIndex (node resp))).
Let publish_gain := CallPut broadcastKey (id st) Option.zero.
Let publish_renew := CallPut broadcastKey (id st) (Option.mk 0 false (-1) 0).

(** The jittered sleep that ends a cycle, for the draw [u]. *)
Let tail (u : float32) : list Obs :=
  [ORand u; OSleep (sleepDuration (ttl st) u)].

(** The injected stall of a leader, for the draw [u]. *)
Let stall (u : float32) : list Obs :=
  if F32.ltb u F32.quarter
  then [OPrint (id st) "-- give up" []; OSleep (Int64.mul (ttl st) 10)]
  else [].

Let logged (err : error) : Obs := OPrint (id st) "error: %s" [err].

Ltac run_branch :=
  unfold get, acquire, renew, publish_gain, publish_renew, tail, logged,
    leaderKey, broadcastKey in *;
  run_cycle.

(** The [Get] fails in transport: the actor logs and stops. *)
Lemma cycle_get_error err :
  store w 0 get = inl err ->
  cycle w st = mkOutcome [OStore get (inl err); logged err] st false.
Proof. intros. run_branch. Qed.

(** Key absent, the acquisition fails in transport. *)
Lemma cycle_acquire_error r0 err :
  store w 0 get = inr r0 -> ErrorCode r0 = 100 ->
  store w 1 acquire = inl err ->
  cycle w st =
    mkOutcome [OStore get (inr r0); OStore acquire (inl err); logged err]
              st false.
Proof. intros ? ?%code_eq ?. run_branch. Qed.

(** Key absent, the acquisition is refused. *)
Lemma cycle_acquire_refused r0 r1 :
  store w 0 get = inr r0 -> ErrorCode r0 = 100 ->
  store w 1 acquire = inr r1 -> ErrorCode r1 <> 0 ->
  cycle w st =
    mkOutcome ([OStore get (inr r0); OStore acquire (inr r1);
                OPrint (id st) "-x failed" []] ++ tail (float32s w 0))
              st true.
Proof. intros ? ?%code_eq ? ?%code_neq. run_branch. Qed.

(** Key absent, the acquisition succeeds, the publication fails in
    transport. *)
Lemma cycle_acquire_publish_error r0 r1 err :
  store w 0 get = inr r0 -> ErrorCode r0 = 100 ->
  store w 1 acquire = inr r1 -> ErrorCode r1 = 0 ->
  store w 2 publish_gain = inl err ->
  cycle w st =
    mkOutcome [OStore get (inr r0); OStore acquire (inr r1);
               OPrint (id st) "-> gain" [];
               OStore publish_gain (inl err); logged err]
              st false.
Proof. intros ? ?%code_eq ? ?%code_eq ?. run_branch. Qed.

(** Key absent, the acquisition succeeds, the publication is answered. *)
Lemma cycle_acquire_published r0 r1 r2 :
  store w 0 get = inr r0 -> ErrorCode r0 = 100 ->
  store w 1 acquire = inr r1 -> ErrorCode r1 = 0 ->
  store w 2 publish_gain = inr r2 ->
  cycle w st =
    mkOutcome ([OStore get (inr r0); OStore acquire (inr r1);
                OPrint (id st) "-> gain" [];
                OStore publish_gain (inr r2)] ++ tail (float32s w 0))
              (set_leader true st) true.
Proof. intros ? ?%code_eq ? ?%code_eq ?. run_branch. Qed.

Lemma code_100_not_0 (r : EtcdResponse) :
  ErrorCode r = 0 -> (ErrorCode r =? 100) = false.
Proof. intros H. rewrite H. reflexivity. Qed.

(** Key held by the actor itself, the renewal fails in transport. *)
Lemma cycle_renew_error r0 err :
  store w 0 get = inr r0 -> ErrorCode r0 = 0 -> Value (node r0) = id st ->
  store w 1 (renew r0) = inl err ->
  cycle w st =
    mkOutcome ([OStore get (inr r0); ORand (float32s w 0)]
               ++ stall (float32s w 0)
               ++ [OStore (renew r0) (inl err); logged err])
              st false.
Proof.
  intros ? H0 Hv%String.eqb_eq ?.
  pose proof (code_100_not_0 _ H0). apply code_eq in H0.
  unfold stall. destruct (F32.ltb (float32s w 0) F32.quarter) eqn:?; run_branch.
Qed.

(** Key held by the actor itself, the renewal is refused. *)
Lemma cycle_renew_refused r0 r1 :
  store w 0 get = inr r0 -> ErrorCode r0 = 0 -> Value (node r0) = id st ->
  store w 1 (renew r0) = inr r1 -> ErrorCode r1 <> 0 ->
  cycle w st =
    mkOutcome ([OStore get (inr r0); ORand (float32s w 0)]
               ++ stall (float32s w 0)
               ++ [OStore (renew r0) (inr r1)] ++ tail (float32s w 1))
              (set_leader false st) true.
Proof.
  intros ? H0 Hv%String.eqb_eq ? ?%code_neq.
  pose proof (code_100_not_0 _ H0). apply code_eq in H0.
  unfold stall. destruct (F32.ltb (float32s w 0) F32.quarter) eqn:?; run_branch.
Qed.

(** Key held by the actor itself, the renewal succeeds, the publication
    fails in transport. *)
Lemma cycle_renew_publish_error r0 r1 err :
  store w 0 get = inr r0 -> ErrorCode r0 = 0 -> Value (node r0) = id st ->
  store w 1 (renew r0) = inr r1 -> ErrorCode r1 = 0 ->
  store w 2 publish_renew = inl err ->
  cycle w st =
    mkOutcome ([OStore get (inr r0); ORand (float32s w 0)]
               ++ stall (float32s w 0)
               ++ [OStore (renew r0) (inr r1);
                   OStore publish_renew (inl err); logged err])
              st false.
Proof.
  intros ? H0 Hv%String.eqb_eq ? ?%code_eq ?.
  pose proof (code_100_not_0 _ H0). apply code_eq in H0.
  unfold stall. destruct (F32.ltb (float32s w 0) F32.quarter) eqn:?; run_branch.
Qed.

(** Key held by the actor itself, the renewal succeeds, the publication
    is answered. *)
Lemma cycle_renew_published r0 r1 r2 :
  store w 0 get = inr r0 -> ErrorCode r0 = 0 -> Value (node r0) = id st ->
  store w 1 (renew r0) = inr r1 -> ErrorCode r1 = 0 ->
  store w 2 publish_renew = inr r2 ->
  cycle w st =
    mkOutcome ([OStore get (inr r0); ORand (float32s w 0)]
               ++ stall (float32s w 0)
               ++ [OStore (renew r0) (inr r1);
                   OStore publish_renew (inr r2)] ++ tail (float32s w 1))
              st true.
Proof.
  intros ? H0 Hv%String.eqb_eq ? ?%code_eq ?.
  pose proof (code_100_not_0 _ H0). apply code_eq in H0.
  unfold stall. destruct (F32.ltb (float32s w 0) F32.quarter) eqn:?; run_branch.
Qed.

(** Key held by another actor. *)
Lemma cycle_other_leader r0 :
  store w 0 get = inr r0 -> ErrorCode r0 = 0 -> Value (node r0) <> id st ->
  cycle w st =
    mkOutcome (OStore get (inr r0) :: tail (float32s w 0)) st true.
Proof.
  intros ? H0 Hv%String.eqb_neq.
  pose proof (code_100_not_0 _ H0). apply code_eq in H0. run_branch.
Qed.

(** The [Get] is answered with a code that is neither 0 nor 100. *)
Lemma cycle_other_code r0 :
  store w 0 get = inr r0 -> ErrorCode r0 <> 0 -> ErrorCode r0 <> 100 ->
  cycle w st =
    mkOutcome (OStore get (inr r0) :: tail (float32s w 0)) st true.
Proof. intros ? ?%code_neq ?%code_neq. run_branch. Qed.
End Cycle.

(** ** The threshold of the stall

    The test [rand.Float32() < 0.25] of the source compares two float32
    values.  For every float32 value the comparison says what the numbers
    say: the draw is below one quarter. *)

Lemma digits2_pos_size (p : positive) : digits2_pos p = Pos.size p.
Proof. induction p; cbn; congruence. Qed.

Lemma Zdigits2_log2 (p : positive) : Z.pos (digits2_pos p) = Z.log2 (Z.pos p) + 1.
Proof.
  rewrite digits2_pos_size. destruct p; cbn; lia.
Qed.

Lemma log2_bounds (p : positive) :
  2 ^ Z.log2 (Z.pos p) <= Z.pos p < 2 ^ (Z.log2 (Z.pos p) + 1).
Proof. rewrite Z.add_1_r. apply Z.log2_spec. lia. Qed.

(** A float32 has at most 24 digits, an exponent of at least -149, and
    exactly 24 digits unless its exponent is the smallest. *)
Lemma valid_mantissa (s : bool) (m : positive) (e : Z) :
  F32.valid (S754_finite s m e) = true ->
  Z.pos m < 2 ^ 24 /\ -149 <= e /\ (-149 < e -> 2 ^ 23 <= Z.pos m).
Proof.
  intros Hvalid.
  unfold F32.valid, valid_binary, bounded, canonical_mantissa in Hvalid.
  apply andb_true_iff in Hvalid as [Hcanon _].
  apply Z.eqb_eq in Hcanon. rewrite Zdigits2_log2 in Hcanon.
  unfold fexp, emin, F32.prec, F32.emax in Hcanon.
  pose proof (log2_bounds m) as [Hlo Hhi].
  pose proof (Z.log2_nonneg (Z.pos m)) as Hl.
  split; [|split].
  - eapply Z.lt_le_trans; [exact Hhi|]. apply Z.pow_le_mono_r; lia.
  - lia.
  - intros He. replace (Z.log2 (Z.pos m)) with 23 in Hlo by lia. exact Hlo.
Qed.

Lemma ltb_quarter_below (u : float32) :
  F32.valid u = true -> F32.ltb u F32.quarter = F32.below u 1 4.
Proof.
  intros Hvalid.
  change F32.quarter with (S754_finite false 8388608 (-25)).
  destruct u as [b|b| |s m e]; try reflexivity.
  - destruct b; reflexivity.
  - apply valid_mantissa in Hvalid as (Hm & He & Hnormal).
    unfold F32.ltb, SFltb, F32.below. cbn [SFcompare].
    destruct s.
    + symmetry. destruct (Z.leb_spec 0 e); apply Z.ltb_lt.
      * assert (0 < 2 ^ e) by (by apply Z.pow_pos_nonneg).
        assert (0 < Z.pos m * 2 ^ e) by (apply Z.mul_pos_pos; lia).
        lia.
      * assert (0 < 2 ^ (- e)) by (apply Z.pow_pos_nonneg; lia). lia.
    + destruct (Z.compare_spec e (-25)) as [He25|He25|He25].
      * subst e. change (0 <=? -25) with false. cbv iota.
        change (1 * 2 ^ (- -25)) with 33554432.
        destruct (Pos.compare_cont Eq m 8388608) eqn:Hc; symmetry.
        -- apply Pos.compare_eq in Hc. subst m. reflexivity.
        -- assert (Z.pos m < 8388608) as Hlt by exact Hc.
           apply Z.ltb_lt. clear -Hlt. lia.
        -- assert (Z.pos m > 8388608) as Hgt by exact Hc.
           apply Z.ltb_ge. clear -Hgt. lia.
      * symmetry. destruct (Z.leb_spec 0 e); [lia|]. apply Z.ltb_lt.
        assert (2 ^ 26 <= 2 ^ (- e)) as Hp by (apply Z.pow_le_mono_r; lia).
        change (2 ^ 24) with 16777216 in Hm. change (2 ^ 26) with 67108864 in Hp.
        clear -Hm Hp. lia.
      * symmetry. specialize (Hnormal ltac:(lia)).
        change (2 ^ 23) with 8388608 in Hnormal.
        destruct (Z.leb_spec 0 e); apply Z.ltb_ge.
        -- assert (0 < 2 ^ e) as Hp by (by apply Z.pow_pos_nonneg).
           assert (1 <= Z.pos m * 2 ^ e) by (clear -Hp Hnormal; nia).
           lia.
        -- assert (2 ^ (- e) <= 2 ^ 24) as Hp by (apply Z.pow_le_mono_r; lia).
           change (2 ^ 24) with 16777216 in Hp.
           clear -Hnormal Hp. lia.
Qed.

(** ** The claims about the cycle *)

Lemma broadcast_is_not_leader (k : string) :
  String.eqb (k +:+ "-broadcast") (k +:+ "-leader") = false.
Proof.
  induction k as [|c k IH]; [reflexivity|].
  change (String.eqb (String c (k +:+ "-broadcast"))
                     (String c (k +:+ "-leader")) = false).
  rewrite String.eqb_neq in *. intros [= H]. done.
Qed.

Lemma existsb_transport_error (l : list Obs) :
  existsb is_transport_error l = true <->
  exists c err, OStore c (inl err) ∈ l.
Proof.
  rewrite existsb_exists. split.
  - intros (o & Hin & Ho). destruct o as [c [err|r]| | |]; try discriminate.
    exists c, err. by apply list_elem_of_In.
  - intros (c & err & Hin). exists (OStore c (inl err)).
    split; [by apply list_elem_of_In | reflexivity].
Qed.

(** C8: when the [Get] of the leader key answers with code 0 and a value
    that is not the actor's id, the cycle consists of that [Get] and the
    jittered sleep: no [Put] and no [Delete] is issued, the state is the
    same in every field, and the loop goes on. *)
Theorem follower_defers_to_other_leader (w : World) (st : State)
    (r0 : EtcdResponse) :
  store w 0 (CallGet (key st +:+ "-leader") (Option.mk 0 false 0 0)) = inr r0 ->
  ErrorCode r0 = 0 ->
  Value (node r0) <> id st ->
  observed (cycle w st) =
    [OStore (CallGet (key st +:+ "-leader") (Option.mk 0 false 0 0)) (inr r0);
     ORand (float32s w 0);
     OSleep (sleepDuration (ttl st) (float32s w 0))]
  /\ List.filter is_write (observed (cycle w st)) = []
  /\ final (cycle w st) = st
  /\ continues (cycle w st) = true.
Proof.
  intros Hget Hcode Hval.
  rewrite (cycle_other_leader w st r0 Hget Hcode Hval). cbn. done.
Qed.

Lemma follower_defers_to_other_leader_witness :
  final (cycle (world_of [inr (Examples.held_by "12" 8)] [Examples.eighth])
               Examples.actor7) = Examples.actor7.
Proof.
  eapply (follower_defers_to_other_leader
            (world_of [inr (Examples.held_by "12" 8)] [Examples.eighth])
            Examples.actor7 (Examples.held_by "12" 8)).
  - reflexivity.
  - reflexivity.
  - vm_compute. discriminate.
Defined.

(** C9: when the [Get] of the leader key answers with a code that is
    neither 0 nor 100, the cycle consists of that [Get] and the jittered
    sleep: no write is issued, the state is the same in every field, and
    the loop goes on. *)
Theorem unanticipated_code_is_skipped (w : World) (st : State)
    (r0 : EtcdResponse) :
  store w 0 (CallGet (key st +:+ "-leader") (Option.mk 0 false 0 0)) = inr r0 ->
  ErrorCode r0 <> 0 ->
  ErrorCode r0 <> 100 ->
  observed (cycle w st) =
    [OStore (CallGet (key st +:+ "-leader") (Option.mk 0 false 0 0)) (inr r0);
     ORand (float32s w 0);
     OSleep (sleepDuration (ttl st) (float32s w 0))]
  /\ List.filter is_write (observed (cycle w st)) = []
  /\ final (cycle w st) = st
  /\ continues (cycle w st) = true.
Proof.
  intros Hget H0 H100.
  rewrite (cycle_other_code w st r0 Hget H0 H100). cbn. done.
Qed.

Lemma unanticipated_code_is_skipped_witness :
  continues (cycle (world_of [inr (Examples.refused 401)] [Examples.eighth])
                   Examples.leader7) = true.
Proof.
  eapply (unanticipated_code_is_skipped
            (world_of [inr (Examples.refused 401)] [Examples.eighth])
            Examples.leader7 (Examples.refused 401)).
  - reflexivity.
  - vm_compute. discriminate.
  - vm_compute. discriminate.
Defined.

Ltac finish_renewal :=
  cbn [observed final continues];
  split; [eexists; reflexivity|];
  split;
    [ destruct (F32.ltb _ _); cbn;
      rewrite ?String.eqb_refl, ?broadcast_is_not_leader; reflexivity
    | intros ? ? ?; simplify_eq; done ].

(** C1: in every cycle whose [Get] of the leader key answers with code 0
    and the actor's own id, the actor makes one draw; exactly when the draw
    is below 0.25 (for every float32 the test of the source says so) it
    sleeps ten times its lease, the product being that of [Duration], which
    is the number itself whenever it fits an int64; then it issues a [Put]
    on the leader key with its id, [prevIndex] the [ModifiedIndex] of that
    [Get] and [ttl] its lease, the only [Put] on the leader key of the
    cycle; when that [Put] is answered with a nonzero code, [leader] is
    false afterwards. *)
Theorem leader_renews_or_steps_down (w : World) (st : State)
    (r0 : EtcdResponse) :
  store w 0 (CallGet (key st +:+ "-leader") (Option.mk 0 false 0 0)) = inr r0 ->
  ErrorCode r0 = 0 ->
  Value (node r0) = id st ->
  let u := float32s w 0 in
  let renew :=
    CallPut (key st +:+ "-leader") (id st)
      (Option.mk (ttl st) false 0 (ModifiedIndex (node r0))) in
  let a := store w 1 renew in
  (exists rest,
     observed (cycle w st) =
       [OStore (CallGet (key st +:+ "-leader") (Option.mk 0 false 0 0))
          (inr r0);
        ORand u]
       ++ (if F32.ltb u F32.quarter
           then [OPrint (id st) "-- give up" [];
                 OSleep (Int64.mul (ttl st) 10)]
           else [])
       ++ OStore renew a :: rest)
  /\ (F32.valid u = true -> F32.ltb u F32.quarter = F32.below u 1 4)
  /\ (Int64.in_range (ttl st * 10) -> Int64.mul (ttl st) 10 = 10 * ttl st)
  /\ List.filter (is_put_on (key st +:+ "-leader")) (observed (cycle w st))
     = [OStore renew a]
  /\ (forall r1, a = inr r1 -> ErrorCode r1 <> 0 ->
        leader (final (cycle w st)) = false
        /\ continues (cycle w st) = true).
Proof.
  intros Hget Hcode Hval u renew a.
  assert (Hmul : Int64.in_range (ttl st * 10) ->
                 Int64.mul (ttl st) 10 = 10 * ttl st).
  { intros Hrange. unfold Int64.mul. rewrite wrap_in_range; [lia | done]. }
  enough (Hcycle :
    (exists rest,
       observed (cycle w st) =
         [OStore (CallGet (key st +:+ "-leader") (Option.mk 0 false 0 0))
            (inr r0);
          ORand u]
         ++ (if F32.ltb u F32.quarter
             then [OPrint (id st) "-- give up" [];
                   OSleep (Int64.mul (ttl st) 10)]
             else [])
         ++ OStore renew a :: rest)
    /\ List.filter (is_put_on (key st +:+ "-leader")) (observed (cycle w st))
       = [OStore renew a]
    /\ (forall r1, a = inr r1 -> ErrorCode r1 <> 0 ->
          leader (final (cycle w st)) = false
          /\ continues (cycle w st) = true)).
  { destruct Hcycle as (Htrace & Hput & Hrefused).
    split; [exact Htrace|].
    split; [exact (ltb_quarter_below u)|].
    split; [exact Hmul|].
    split; [exact Hput|exact Hrefused]. }
  clear Hmul. subst a.
  destruct (store w 1 renew) as [err|r1] eqn:Ha.
  - rewrite (cycle_renew_error w st r0 err Hget Hcode Hval Ha).
    finish_renewal.
  - destruct (Z.eq_dec (ErrorCode r1) 0) as [H1|H1].
    + destruct (store w 2 (CallPut (key st +:+ "-broadcast") (id st)
                             (Option.mk 0 false (-1) 0)))
        as [err|r2] eqn:Hpub.
      * rewrite (cycle_renew_publish_error w st r0 r1 err
                   Hget Hcode Hval Ha H1 Hpub).
        finish_renewal.
      * rewrite (cycle_renew_published w st r0 r1 r2
                   Hget Hcode Hval Ha H1 Hpub).
        finish_renewal.
    + rewrite (cycle_renew_refused w st r0 r1 Hget Hcode Hval Ha H1).
      finish_renewal.
Qed.

(** The actor 7, leader with a lease of one second, finds its own id at
    index 8 and draws one eighth: it stalls for ten seconds, presents index
    8 with the lease, is refused with code 101 and steps down.  One eighth
    is below the threshold of the stall, three quarters is not. *)
Lemma leader_renews_or_steps_down_witness :
  (exists rest,
     observed (cycle
       (world_of [inr (Examples.held_by "7" 8); inr (Examples.refused 101)]
                 [Examples.eighth; Examples.three_quarters])
       Examples.leader7) =
       [OStore (CallGet "shard-5-leader" (Option.mk 0 false 0 0))
          (inr (Examples.held_by "7" 8));
        ORand Examples.eighth;
        OPrint "7" "-- give up" [];
        OSleep 10000000000;
        OStore (CallPut "shard-5-leader" "7" (Option.mk 1000000000 false 0 8))
          (inr (Examples.refused 101))] ++ rest)
  /\ F32.ltb Examples.eighth F32.quarter = true
  /\ F32.ltb Examples.three_quarters F32.quarter = false
  /\ leader (final (cycle
       (world_of [inr (Examples.held_by "7" 8); inr (Examples.refused 101)]
                 [Examples.eighth; Examples.three_quarters])
       Examples.leader7)) = false.
Proof.
  destruct (leader_renews_or_steps_down
              (world_of [inr (Examples.held_by "7" 8);
                         inr (Examples.refused 101)]
                        [Examples.eighth; Examples.three_quarters])
              Examples.leader7 (Examples.held_by "7" 8)
              eq_refl eq_refl eq_refl)
    as (Htrace & _ & _ & _ & Hrefused).
  split; [exact Htrace|].
  split; [reflexivity|].
  split; [reflexivity|].
  apply (Hrefused (Examples.refused 101)).
  - reflexivity.
  - vm_compute. discriminate.
Defined.

(** C4: when the renewal [Put] on the leader key is answered with code 0,
    the state of the actor, [leader] included, is what it was; right after
    the renewal the actor issues a [Put] of its id on the broadcast key
    with [prevExist = -1] (must not exist); and whatever response that
    [Put] gets, its code is not looked at: the loop goes on. *)
Theorem renewed_leader_republishes (w : World) (st : State)
    (r0 r1 : EtcdResponse) :
  store w 0 (CallGet (key st +:+ "-leader") (Option.mk 0 false 0 0)) = inr r0 ->
  ErrorCode r0 = 0 ->
  Value (node r0) = id st ->
  store w 1 (CallPut (key st +:+ "-leader") (id st)
               (Option.mk (ttl st) false 0 (ModifiedIndex (node r0))))
    = inr r1 ->
  ErrorCode r1 = 0 ->
  let renew :=
    CallPut (key st +:+ "-leader") (id st)
      (Option.mk (ttl st) false 0 (ModifiedIndex (node r0))) in
  let publish :=
    CallPut (key st +:+ "-broadcast") (id st) (Option.mk 0 false (-1) 0) in
  let a := store w 2 publish in
  final (cycle w st) = st
  /\ (exists before after,
        observed (cycle w st) =
          before ++ OStore renew (inr r1) :: OStore publish a :: after)
  /\ (forall r2, a = inr r2 ->
        continues (cycle w st) = true
        /\ exists before,
             observed (cycle w st) =
               before ++ [OStore publish (inr r2); ORand (float32s w 1);
                          OSleep (sleepDuration (ttl st) (float32s w 1))]).
Proof.
  intros Hget Hcode Hval Hrenew H1 renew publish a. subst a.
  set (before :=
    [OStore (CallGet (key st +:+ "-leader") (Option.mk 0 false 0 0)) (inr r0);
     ORand (float32s w 0)]
    ++ (if F32.ltb (float32s w 0) F32.quarter
        then [OPrint (id st) "-- give up" []; OSleep (Int64.mul (ttl st) 10)]
        else [])).
  destruct (store w 2 publish) as [err|r2] eqn:Hpub.
  - rewrite (cycle_renew_publish_error w st r0 r1 err
               Hget Hcode Hval Hrenew H1 Hpub).
    cbn [observed final continues]. split; [done|]. split; [|done].
    exists before, [OPrint (id st) "error: %s" [err]].
    subst before. by rewrite <- app_assoc.
  - rewrite (cycle_renew_published w st r0 r1 r2
               Hget Hcode Hval Hrenew H1 Hpub).
    cbn [observed final continues]. split; [done|]. split.
    + exists before, [ORand (float32s w 1);
                      OSleep (sleepDuration (ttl st) (float32s w 1))].
      subst before. by rewrite <- app_assoc.
    + intros ? [= <-]. split; [done|].
      exists (before ++ [OStore renew (inr r1)]).
      subst before. by rewrite <- !app_assoc.
Qed.

Lemma renewed_leader_republishes_witness :
  final (cycle
    (world_of [inr (Examples.held_by "7" 8); inr (Examples.written "7" 9);
               inr (Examples.refused 105)]
              [Examples.three_quarters; Examples.eighth])
    Examples.leader7) = Examples.leader7.
Proof.
  eapply (renewed_leader_republishes
            (world_of [inr (Examples.held_by "7" 8);
                       inr (Examples.written "7" 9);
                       inr (Examples.refused 105)]
                      [Examples.three_quarters; Examples.eighth])
            Examples.leader7 (Examples.held_by "7" 8)
            (Examples.written "7" 9)); reflexivity.
Defined.

(** Case analysis on a cycle: one goal for each way the world can answer,
    with [cycle w st] replaced by its outcome there. *)
Ltac case_cycle w st :=
  let r0 := fresh "r0" in let r1 := fresh "r1" in let r2 := fresh "r2" in
  let err := fresh "err" in
  let Hget := fresh "Hget" in let Hput := fresh "Hput" in
  let Hpub := fresh "Hpub" in
  let H100 := fresh "H100" in let H0 := fresh "H0" in
  let H1 := fresh "H1" in let Hval := fresh "Hval" in
  destruct (store w 0 (CallGet (key st +:+ "-leader") (Option.mk 0 false 0 0)))
    as [err|r0] eqn:Hget;
  [ rewrite (cycle_get_error w st err Hget)
  | destruct (Z.eq_dec (ErrorCode r0) 100) as [H100|H100];
    [ destruct (store w 1 (CallPut (key st +:+ "-leader") (id st)
                             (Option.mk 0 false (-1) 0)))
        as [err|r1] eqn:Hput;
      [ rewrite (cycle_acquire_error w st r0 err Hget H100 Hput)
      | destruct (Z.eq_dec (ErrorCode r1) 0) as [H1|H1];
        [ destruct (store w 2 (CallPut (key st +:+ "-broadcast") (id st)
                                 Option.zero)) as [err|r2] eqn:Hpub;
          [ rewrite (cycle_acquire_publish_error w st r0 r1 err
                       Hget H100 Hput H1 Hpub)
          | rewrite (cycle_acquire_published w st r0 r1 r2
                       Hget H100 Hput H1 Hpub) ]
        | rewrite (cycle_acquire_refused w st r0 r1 Hget H100 Hput H1) ] ]
    | destruct (Z.eq_dec (ErrorCode r0) 0) as [H0|H0];
      [ destruct (String.eqb_spec (Value (node r0)) (id st)) as [Hval|Hval];
        [ destruct (store w 1 (CallPut (key st +:+ "-leader") (id st)
                     (Option.mk (ttl st) false 0 (ModifiedIndex (node r0)))))
            as [err|r1] eqn:Hput;
          [ rewrite (cycle_renew_error w st r0 err Hget H0 Hval Hput)
          | destruct (Z.eq_dec (ErrorCode r1) 0) as [H1|H1];
            [ destruct (store w 2 (CallPut (key st +:+ "-broadcast") (id st)
                                     (Option.mk 0 false (-1) 0)))
                as [err|r2] eqn:Hpub;
              [ rewrite (cycle_renew_publish_error w st r0 r1 err
                           Hget H0 Hval Hput H1 Hpub)
              | rewrite (cycle_renew_published w st r0 r1 r2
                           Hget H0 Hval Hput H1 Hpub) ]
            | rewrite (cycle_renew_refused w st r0 r1
                         Hget H0 Hval Hput H1) ] ]
        | rewrite (cycle_other_leader w st r0 Hget H0 Hval) ]
      | rewrite (cycle_other_code w st r0 Hget H0 H100) ] ] ];
  cbn [observed final continues];
  try destruct (F32.ltb (float32s w 0) F32.quarter).

(** C5: a cycle returns false, which ends the loop of [run], exactly when
    one of the calls it made on the store came back with a Go error; a
    response with a nonzero code, on whichever call, never ends it. *)
Theorem stops_iff_transport_error (w : World) (st : State) :
  continues (cycle w st) = false <->
  exists c err, OStore c (inl err) ∈ observed (cycle w st).
Proof.
  rewrite <- existsb_transport_error.
  case_cycle w st; done.
Qed.

(** C2, as the code has it: when the [Get] of the leader key answers with
    code 100, the actor issues a [Put] of its id on the leader key with
    [prevExist = -1]; when that [Put] is answered with code 0 it issues an
    unconditional [Put] of its id on the broadcast key; a Go error on that
    publication stops the actor with its state as it was; once the
    publication is answered, whatever the code, [leader] is true and the
    loop goes on; when the acquisition is answered with a nonzero code the
    state is as it was, nothing is published and the loop goes on. *)
Theorem acquisition_sets_leader_after_publish (w : World) (st : State)
    (r0 : EtcdResponse) :
  store w 0 (CallGet (key st +:+ "-leader") (Option.mk 0 false 0 0)) = inr r0 ->
  ErrorCode r0 = 100 ->
  let get := CallGet (key st +:+ "-leader") (Option.mk 0 false 0 0) in
  let acquire :=
    CallPut (key st +:+ "-leader") (id st) (Option.mk 0 false (-1) 0) in
  let publish := CallPut (key st +:+ "-broadcast") (id st) Option.zero in
  let a1 := store w 1 acquire in
  let a2 := store w 2 publish in
  (exists rest,
     observed (cycle w st) = OStore get (inr r0) :: OStore acquire a1 :: rest)
  /\ (forall r1, a1 = inr r1 -> ErrorCode r1 = 0 ->
        (exists rest,
           observed (cycle w st) =
             [OStore get (inr r0); OStore acquire (inr r1);
              OPrint (id st) "-> gain" []; OStore publish a2] ++ rest)
        /\ (forall err, a2 = inl err ->
              continues (cycle w st) = false /\ final (cycle w st) = st)
        /\ (forall r2, a2 = inr r2 ->
              continues (cycle w st) = true
              /\ final (cycle w st) = set_leader true st))
  /\ (forall r1, a1 = inr r1 -> ErrorCode r1 <> 0 ->
        continues (cycle w st) = true
        /\ final (cycle w st) = st
        /\ List.filter is_write (observed (cycle w st))
           = [OStore acquire (inr r1)]).
Proof.
  intros Hget H100 get acquire publish a1 a2. subst a1 a2.
  destruct (store w 1 acquire) as [err|r1] eqn:Hput.
  { rewrite (cycle_acquire_error w st r0 err Hget H100 Hput).
    cbn [observed final continues]. split; [by eexists|]. by split. }
  destruct (Z.eq_dec (ErrorCode r1) 0) as [H1|H1].
  - destruct (store w 2 publish) as [err|r2] eqn:Hpub.
    + rewrite (cycle_acquire_publish_error w st r0 r1 err
                 Hget H100 Hput H1 Hpub).
      cbn [observed final continues]. split; [by eexists|].
      split; [|by intros ? [= <-]].
      intros ? [= <-] _. split; [by eexists|]. by split.
    + rewrite (cycle_acquire_published w st r0 r1 r2
                 Hget H100 Hput H1 Hpub).
      cbn [observed final continues]. split; [by eexists|].
      split; [|by intros ? [= <-]].
      intros ? [= <-] _. split; [by eexists|]. by split.
  - rewrite (cycle_acquire_refused w st r0 r1 Hget H100 Hput H1).
    cbn [observed final continues]. split; [by eexists|].
    split; [by intros ? [= <-]|].
    intros ? [= <-] _. done.
Qed.

Lemma acquisition_sets_leader_after_publish_witness :
  final (cycle
    (world_of [inr Examples.absent; inr (Examples.written "7" 4);
               inr (Examples.refused 105)]
              [Examples.three_quarters])
    Examples.actor7) = Examples.leader7.
Proof.
  eapply (acquisition_sets_leader_after_publish
            (world_of [inr Examples.absent; inr (Examples.written "7" 4);
                       inr (Examples.refused 105)]
                      [Examples.three_quarters])
            Examples.actor7 Examples.absent); reflexivity.
Defined.

(** C2, as the claim words it, fails: the key is absent, the acquisition
    is answered with code 0, the publication on the broadcast key comes
    back with a Go error; the actor stops, and [leader] is still false. *)
Lemma acquisition_publish_error_leaves_follower :
  let w := world_of [inr Examples.absent; inr (Examples.written "7" 4);
                     inl "connection reset by peer"%string] [] in
  let st := Examples.actor7 in
  store w 0 (CallGet (key st +:+ "-leader") (Option.mk 0 false 0 0))
    = inr Examples.absent
  /\ ErrorCode Examples.absent = 100
  /\ store w 1 (CallPut (key st +:+ "-leader") (id st)
                  (Option.mk 0 false (-1) 0))
     = inr (Examples.written "7" 4)
  /\ ErrorCode (Examples.written "7" 4) = 0
  /\ store w 2 (CallPut (key st +:+ "-broadcast") (id st) Option.zero)
     = inl "connection reset by peer"%string
  /\ continues (cycle w st) = false
  /\ leader (final (cycle w st)) = false
  /\ leader (final (cycle w st)) <> true.
Proof. vm_compute. repeat split; discriminate. Qed.

(** ** The request [Put] encodes *)

Lemma QueryEscape_digits (d : Decimal.uint) :
  QueryEscape (NilEmpty.string_of_uint d) = NilEmpty.string_of_uint d.
Proof. induction d; cbn; [reflexivity | by f_equal ..]. Qed.

(** A decimal numeral is left as it is by the escaping. *)
Lemma QueryEscape_Itoa (i : Z) : QueryEscape (Itoa i) = Itoa i.
Proof.
  unfold Itoa, NilZero.string_of_int.
  destruct (Z.to_int i) as [d|d]; unfold NilZero.string_of_uint.
  - destruct d; try reflexivity; apply QueryEscape_digits.
  - change (String "-" (QueryEscape
              match d with
              | Decimal.Nil => "0"
              | _ => NilEmpty.string_of_uint d
              end) = String "-" match d with
                                | Decimal.Nil => "0"
                                | _ => NilEmpty.string_of_uint d
                                end).
    f_equal. destruct d; try reflexivity; apply QueryEscape_digits.
Qed.

(** The fields of the form of [Put], for any strings in the place of the
    two numerals. *)
Lemma Put_values_fields (value : string) (o : Option.t) (t i : string) :
  Itoa (Int64.div (Option.ttl o) Second) = t ->
  Itoa (Option.prevIndex o) = i ->
  let vs := Put_values value o in
  vs !! "value"%string = Some [value]
  /\ vs !! "ttl"%string = (if Option.ttl o =? 0 then None else Some [t])
  /\ vs !! "prevExist"%string =
       (if Option.prevExist o =? 1 then Some ["true"%string]
        else if Option.prevExist o =? -1 then Some ["false"%string]
        else None)
  /\ vs !! "prevIndex"%string =
       (if Option.prevIndex o =? 0 then None else Some [i])
  /\ Encode_fields vs =
       (if Option.prevExist o =? 1 then ["prevExist=true"%string]
        else if Option.prevExist o =? -1 then ["prevExist=false"%string]
        else [])
       ++ (if Option.prevIndex o =? 0 then []
           else ["prevIndex=" +:+ QueryEscape i])
       ++ (if Option.ttl o =? 0 then [] else ["ttl=" +:+ QueryEscape t])
       ++ ["value=" +:+ QueryEscape value].
Proof.
  intros Ht Hi. unfold Put_values. rewrite Ht, Hi. clear Ht Hi.
  destruct (Option.ttl o =? 0), (Option.prevExist o =? 1),
    (Option.prevExist o =? -1), (Option.prevIndex o =? 0);
    repeat split; vm_compute; reflexivity.
Qed.

(** C7: the form [Put(key, value, option)] encodes holds the field
    [value] with the value given; the field [ttl], the lease in whole
    seconds, exactly when [option.ttl] is not 0; the field [prevExist],
    [true] for 1 (must exist), [false] for -1 (must not exist), absent
    otherwise; the field [prevIndex] exactly when [option.prevIndex] is
    not 0; the body of the request sent is the encoding of that form, and
    it has these fields and no other. *)
Theorem Put_encodes_directives
    (url_Parse_error : string -> option error)
    (json_Unmarshal : string -> error + EtcdResponse)
    (c : EtcdClient) (k value : string) (o : Option.t) :
  let vs := Put_values value o in
  vs !! "value"%string = Some [value]
  /\ vs !! "ttl"%string =
       (if Option.ttl o =? 0 then None
        else Some [Itoa (Int64.div (Option.ttl o) Second)])
  /\ vs !! "prevExist"%string =
       (if Option.prevExist o =? 1 then Some ["true"%string]
        else if Option.prevExist o =? -1 then Some ["false"%string]
        else None)
  /\ vs !! "prevIndex"%string =
       (if Option.prevIndex o =? 0 then None
        else Some [Itoa (Option.prevIndex o)])
  /\ Encode_fields vs =
       (if Option.prevExist o =? 1 then ["prevExist=true"%string]
        else if Option.prevExist o =? -1 then ["prevExist=false"%string]
        else [])
       ++ (if Option.prevIndex o =? 0 then []
           else ["prevIndex=" +:+ Itoa (Option.prevIndex o)])
       ++ (if Option.ttl o =? 0 then []
           else ["ttl=" +:+ Itoa (Int64.div (Option.ttl o) Second)])
       ++ ["value=" +:+ QueryEscape value]
  /\ match Put url_Parse_error json_Unmarshal c k value o with
     | Ret r => exists err, r = inl err
                            /\ url_Parse_error (MakeURL c k) = Some err
     | Vis e _ =>
         match e with
         | Do req =>
             Method req = "PUT"%string
             /\ URL req = MakeURL c k
             /\ Body req = Some (String.concat "&" (Encode_fields vs))
         end
     end.
Proof.
  intros vs.
  destruct (Put_values_fields value o _ _ eq_refl eq_refl)
    as (Hv & Ht & He & Hi & Hf).
  rewrite !QueryEscape_Itoa in Hf.
  repeat (split; [assumption|]).
  unfold Put, NewRequest.
  destruct (url_Parse_error (MakeURL c k)) as [err|]; cbn.
  - by exists err.
  - done.
Qed.

Ltac find_put H :=
  cbn [app] in H;
  repeat first
    [ apply elem_of_nil in H; contradiction
    | apply elem_of_cons in H as [H|H]; [simplify_eq|] ].

(** C10: the [Put] that acquires an absent leader key has [ttl = 0] in
    its options, so the form it encodes has no [ttl] field (the body is
    [prevExist=false&value=<id>]); and a [Put] of a cycle whose options
    have a nonzero [ttl] is the renewal: it is on the leader key, in a
    cycle whose [Get] found the actor's own id, with the lease as [ttl]. *)
Theorem only_renewal_attaches_ttl (w : World) (st : State) :
  (forall r0,
     store w 0 (CallGet (key st +:+ "-leader") (Option.mk 0 false 0 0))
       = inr r0 ->
     ErrorCode r0 = 100 ->
     exists o rest,
       observed (cycle w st) =
         OStore (CallGet (key st +:+ "-leader") (Option.mk 0 false 0 0))
           (inr r0)
         :: OStore (CallPut (key st +:+ "-leader") (id st) o)
              (store w 1 (CallPut (key st +:+ "-leader") (id st) o))
         :: rest
       /\ Option.ttl o = 0
       /\ Put_values (id st) o !! "ttl"%string = None
       /\ Encode (Put_values (id st) o) =
            "prevExist=false&value=" +:+ QueryEscape (id st))
  /\ (forall k v o a,
        OStore (CallPut k v o) a ∈ observed (cycle w st) ->
        Option.ttl o <> 0 ->
        exists r0,
          store w 0 (CallGet (key st +:+ "-leader") (Option.mk 0 false 0 0))
            = inr r0
          /\ ErrorCode r0 = 0
          /\ Value (node r0) = id st
          /\ k = key st +:+ "-leader"
          /\ v = id st
          /\ o = Option.mk (ttl st) false 0 (ModifiedIndex (node r0))).
Proof.
  split.
  - intros r0 Hget H100.
    exists (Option.mk 0 false (-1) 0).
    destruct (store w 1 (CallPut (key st +:+ "-leader") (id st)
                           (Option.mk 0 false (-1) 0)))
      as [err|r1] eqn:Hput.
    + rewrite (cycle_acquire_error w st r0 err Hget H100 Hput).
      eexists. split; [reflexivity|]. split; [reflexivity|].
      split; vm_compute; reflexivity.
    + assert (Hrest : exists rest,
                observed (cycle w st) =
                  OStore (CallGet (key st +:+ "-leader")
                            (Option.mk 0 false 0 0)) (inr r0)
                  :: OStore (CallPut (key st +:+ "-leader") (id st)
                               (Option.mk 0 false (-1) 0)) (inr r1)
                  :: rest).
      { destruct (Z.eq_dec (ErrorCode r1) 0) as [H1|H1].
        - destruct (store w 2 (CallPut (key st +:+ "-broadcast") (id st)
                                 Option.zero)) as [err|r2] eqn:Hpub.
          + rewrite (cycle_acquire_publish_error w st r0 r1 err
                       Hget H100 Hput H1 Hpub). by eexists.
          + rewrite (cycle_acquire_published w st r0 r1 r2
                       Hget H100 Hput H1 Hpub). by eexists.
        - rewrite (cycle_acquire_refused w st r0 r1 Hget H100 Hput H1).
          by eexists. }
      destruct Hrest as [rest ->]. exists rest.
      split; [reflexivity|]. split; [reflexivity|].
      split; vm_compute; reflexivity.
  - intros k v o a Hin Hne. revert Hin.
    case_cycle w st; intros Hin; find_put Hin; try done.
    all: exists r0; done.
Qed.

Lemma only_renewal_attaches_ttl_witness :
  exists o rest,
    observed (cycle (world_of [inr Examples.absent;
                               inr (Examples.written "7" 4);
                               inr (Examples.written "7" 5)]
                              [Examples.eighth]) Examples.actor7) =
      OStore (CallGet "shard-5-leader" (Option.mk 0 false 0 0))
        (inr Examples.absent)
      :: OStore (CallPut "shard-5-leader" "7" o) (inr (Examples.written "7" 4))
      :: rest
    /\ Option.ttl o = 0
    /\ Put_values "7" o !! "ttl"%string = None
    /\ Encode (Put_values "7" o) = "prevExist=false&value=7"%string.
Proof.
  exact (proj1 (only_renewal_attaches_ttl
                  (world_of [inr Examples.absent;
                             inr (Examples.written "7" 4);
                             inr (Examples.written "7" 5)]
                            [Examples.eighth]) Examples.actor7)
               Examples.absent eq_refl eq_refl).
Defined.

(** ** float32 rounding

    [SpecFloat] rounds by shifting the mantissa right and inspecting the
    bits shifted out.  The lemmas below bring that down to integer
    division, and then to the one fact the jitter needs: a number that
    float32 holds exactly is never crossed by rounding. *)

Lemma iter_pos_nat {A} (f : A -> A) (p : positive) (x : A) :
  SpecFloat.iter_pos f p x = Nat.iter (Pos.to_nat p) f x.
Proof.
  revert x. induction p as [p IH|p IH|]; intros x; cbn [SpecFloat.iter_pos].
  - rewrite !IH, Pos2Nat.inj_xI.
    replace (S (2 * Pos.to_nat p))%nat with (Pos.to_nat p + (Pos.to_nat p + 1))%nat by lia.
    rewrite !Nat.iter_add. reflexivity.
  - rewrite !IH, Pos2Nat.inj_xO.
    replace (2 * Pos.to_nat p)%nat with (Pos.to_nat p + Pos.to_nat p)%nat by lia.
    rewrite Nat.iter_add. reflexivity.
  - reflexivity.
Qed.

Lemma shr_1_nonneg (m : Z) (r s : bool) :
  0 <= m ->
  shr_1 (Build_shr_record m r s) = Build_shr_record (m / 2) (Z.odd m) (r || s).
Proof.
  intros Hm. destruct m as [|p|p]; [reflexivity| |lia].
  destruct p; cbn [shr_1]; f_equal.
  - rewrite Pos2Z.inj_xI. apply Z.div_unique with 1; lia.
  - rewrite Pos2Z.inj_xO. apply Z.div_unique with 0; lia.
Qed.

Lemma mod_pow2_succ (m n : Z) : 0 <= n ->
  m mod 2 ^ (n + 1) = Z.b2z (Z.testbit m n) * 2 ^ n + m mod 2 ^ n.
Proof.
  intros Hn. rewrite Z.testbit_spec' by lia.
  rewrite Z.pow_add_r by lia. change (2 ^ 1) with 2.
  rewrite Z.rem_mul_r by lia. lia.
Qed.

Lemma shr_iter (m : Z) (n : nat) :
  0 <= m ->
  Nat.iter n shr_1 (Build_shr_record m false false) = F32.shifted m n.
Proof.
  intros Hm. induction n as [|n IH].
  - cbn. unfold F32.shifted. cbn. rewrite Z.div_1_r. reflexivity.
  - rewrite Nat.iter_succ, IH. unfold F32.shifted.
    rewrite shr_1_nonneg by (apply Z.div_pos; lia).
    f_equal.
    + rewrite Z.div_div by lia. f_equal. rewrite Nat2Z.inj_succ.
      rewrite Z.pow_succ_r by lia. lia.
    + rewrite Z.testbit_odd, Z.shiftr_div_pow2 by lia. reflexivity.
    + destruct n as [|n']; [cbn; rewrite Z.mod_1_r; reflexivity|].
      rewrite Nat2Z.inj_succ, <- Z.add_1_r.
      rewrite (mod_pow2_succ m (Z.of_nat n')) by lia.
      pose proof (Z.mod_pos_bound m (2 ^ Z.of_nat n') ltac:(lia)).
      pose proof (Z.pow_pos_nonneg 2 (Z.of_nat n') ltac:(lia) ltac:(lia)).
      destruct (Z.testbit m (Z.of_nat n')); cbn [Z.b2z orb negb].
      * destruct (Z.eqb_spec (1 * 2 ^ Z.of_nat n' + m mod 2 ^ Z.of_nat n') 0);
          [lia | reflexivity].
      * rewrite Z.mul_0_l, Z.add_0_l. reflexivity.
Qed.

Lemma shr_spec (m e n : Z) :
  0 <= m -> 0 <= n ->
  shr (Build_shr_record m false false) e n = (F32.shifted m (Z.to_nat n), e + n).
Proof.
  intros Hm Hn. destruct n as [|p|p]; [| |lia].
  - cbn. unfold F32.shifted. cbn. rewrite Z.div_1_r, Z.add_0_r. reflexivity.
  - cbn [shr]. rewrite iter_pos_nat, shr_iter by lia. reflexivity.
Qed.

(** The mantissa after rounding to nearest even. *)
Lemma round_shifted (m : Z) (n : nat) :
  0 <= m ->
  let q := m / 2 ^ Z.of_nat n in
  let r := round_nearest_even (shr_m (F32.shifted m n))
             (loc_of_shr_record (F32.shifted m n)) in
  (r = q \/ r = q + 1) /\ (m mod 2 ^ Z.of_nat n = 0 -> r = q).
Proof.
  intros Hm q r. subst r. unfold F32.shifted. cbn [shr_m].
  destruct n as [|n]; [cbn; lia|].
  fold q.
  rewrite Nat2Z.inj_succ, <- Z.add_1_r.
  rewrite (mod_pow2_succ m (Z.of_nat n)) by lia.
  pose proof (Z.mod_pos_bound m (2 ^ Z.of_nat n) ltac:(lia)).
  destruct (Z.testbit m (Z.of_nat n)), (Z.eqb_spec (m mod 2 ^ Z.of_nat n) 0);
    cbn [negb loc_of_shr_record round_nearest_even Z.b2z];
    try destruct (Z.even q); lia.
Qed.

Lemma quotient_normal (M : positive) :
  let k := Z.log2 (Z.pos M) + 1 - 24 in
  0 <= k ->
  2 ^ 23 <= Z.pos M / 2 ^ k < 2 ^ 24.
Proof.
  intros k Hk. pose proof (log2_bounds M) as [Hlo Hhi].
  replace (Z.log2 (Z.pos M)) with (23 + k) in Hlo by lia.
  replace (Z.log2 (Z.pos M) + 1) with (24 + k) in Hhi by lia.
  rewrite Z.pow_add_r in Hlo, Hhi by lia.
  pose proof (Z.pow_pos_nonneg 2 k ltac:(lia) Hk).
  split.
  - apply Z.div_le_lower_bound; lia.
  - apply Z.div_lt_upper_bound; lia.
Qed.

Lemma round_aux_normal (M : positive) (E : Z) :
  let k := Z.log2 (Z.pos M) + 1 - 24 in
  0 <= k -> -149 <= E + k -> E + k < 104 ->
  exists m2 e2 r,
    binary_round_aux 24 128 false (Z.pos M) E loc_Exact
      = S754_finite false m2 e2
    /\ 2 ^ 23 <= Z.pos m2 < 2 ^ 24
    /\ E + k <= e2 <= E + k + 1
    /\ Z.pos m2 * 2 ^ (e2 - (E + k)) = r
    /\ (r = Z.pos M / 2 ^ k \/ r = Z.pos M / 2 ^ k + 1)
    /\ (Z.pos M mod 2 ^ k = 0 -> r = Z.pos M / 2 ^ k).
Proof.
  intros k Hk Hlo Hhi.
  pose proof (quotient_normal M Hk) as Hq. fold k in Hq.
  unfold binary_round_aux, shr_fexp.
  cbn [Zdigits2]. rewrite Zdigits2_log2.
  assert (Hf : fexp 24 128 (Z.log2 (Z.pos M) + 1 + E) = E + k).
  { unfold fexp, emin. lia. }
  rewrite Hf. replace (E + k - E) with k by lia.
  cbn [shr_record_of_loc]. rewrite shr_spec by lia.
  pose proof (round_shifted (Z.pos M) (Z.to_nat k) ltac:(lia)) as Hr.
  rewrite Z2Nat.id in Hr by lia. cbn zeta in Hr.
  set (r := round_nearest_even _ _) in *.
  destruct Hr as [Hr Hexact].
  destruct r as [|pr|pr] eqn:Er; [lia| |lia].
  cbn [Zdigits2]. rewrite Zdigits2_log2.
  destruct (Z.eq_dec (Z.pos pr) (2 ^ 24)) as [Hcarry|Hcarry].
  - assert (Hl : Z.log2 (Z.pos pr) = 24).
    { rewrite Hcarry. reflexivity. }
    rewrite Hl.
    assert (Hf2 : fexp 24 128 (24 + 1 + (E + k)) = E + k + 1).
    { unfold fexp, emin. lia. }
    rewrite Hf2. replace (E + k + 1 - (E + k)) with 1 by lia.
    rewrite shr_spec by lia. rewrite Hcarry.
    change (shr_m (F32.shifted (2 ^ 24) (Z.to_nat 1))) with (Z.pos 8388608).
    cbn match.
    replace (E + k + 1 <=? 128 - 24) with true by (symmetry; apply Z.leb_le; lia).
    exists 8388608%positive, (E + k + 1), (2 ^ 24).
    split; [reflexivity|]. split; [lia|]. split; [lia|].
    split; [replace (E + k + 1 - (E + k)) with 1 by lia; reflexivity|].
    split; [lia|]. intros H. specialize (Hexact H). lia.
  - assert (Hl : Z.log2 (Z.pos pr) = 23).
    { apply Z.log2_unique; lia. }
    rewrite Hl.
    assert (Hf2 : fexp 24 128 (23 + 1 + (E + k)) = E + k).
    { unfold fexp, emin. lia. }
    rewrite Hf2. replace (E + k - (E + k)) with 0 by lia.
    rewrite shr_spec by lia.
    change (Z.to_nat 0) with O. unfold F32.shifted. cbn [shr_m].
    rewrite Z.pow_0_r, Z.div_1_r, Z.add_0_r.
    replace (E + k <=? 128 - 24) with true by (symmetry; apply Z.leb_le; lia).
    exists pr, (E + k), (Z.pos pr).
    split; [reflexivity|]. split; [lia|]. split; [lia|].
    split; [replace (E + k - (E + k)) with 0 by lia; lia|].
    split; [lia|]. exact Hexact.
Qed.

Lemma representable_multiple (c j g : Z) :
  0 <= j -> 0 <= g -> 0 <= c < 2 ^ 24 ->
  2 ^ 23 * 2 ^ g <= c * 2 ^ j ->
  exists t, c * 2 ^ j = t * 2 ^ g.
Proof.
  intros Hj Hg Hc Hle.
  assert (g <= j) as Hgj.
  { destruct (Z_le_gt_dec g j) as [|Hlt]; [assumption|exfalso].
    assert (2 ^ (j + 1) <= 2 ^ g) by (apply Z.pow_le_mono_r; lia).
    rewrite Z.pow_add_r in H by lia. change (2 ^ 1) with 2 in H.
    pose proof (Z.pow_pos_nonneg 2 j ltac:(lia) Hj).
    assert (c * 2 ^ j < 2 ^ 24 * 2 ^ j) by nia.
    change (2 ^ 24) with (2 ^ 23 * 2) in H1. nia. }
  exists (c * 2 ^ (j - g)).
  rewrite <- Z.mul_assoc, <- Z.pow_add_r by lia. do 2 f_equal. lia.
Qed.

(** Rounding, seen from a number [c * 2^j] that needs no rounding: the
    result stays on the same side of it as the exact value. *)
Lemma round_between (M q R r P a c j g : Z) :
  0 < a -> 0 < P -> P * a = 2 ^ g -> 0 <= g -> 0 <= j ->
  M = P * q + R -> 0 <= R < P ->
  2 ^ 23 <= q ->
  (r = q \/ r = q + 1) -> (R = 0 -> r = q) ->
  0 <= c < 2 ^ 24 ->
  (c * 2 ^ j <= M * a -> c * 2 ^ j <= r * 2 ^ g)
  /\ (M * a <= c * 2 ^ j -> r * 2 ^ g <= c * 2 ^ j).
Proof.
  intros Ha HP HG Hg Hj HM HR Hq Hr Hexact Hc.
  assert (HGpos : 0 < 2 ^ g) by (apply Z.pow_pos_nonneg; lia).
  assert (HMa : M * a = q * 2 ^ g + R * a) by (rewrite HM, <- HG; ring).
  assert (HRa : 0 <= R * a < 2 ^ g) by (rewrite <- HG; nia).
  split; intros Hle.
  - destruct (Z_lt_le_dec (c * 2 ^ j) (2 ^ 23 * 2 ^ g)) as [Hsmall|Hbig].
    + assert (q * 2 ^ g <= r * 2 ^ g) by nia. nia.
    + destruct (representable_multiple c j g Hj Hg Hc Hbig) as [t Ht].
      rewrite Ht in *. assert (t < q + 1) by nia. nia.
  - assert (Hbig : 2 ^ 23 * 2 ^ g <= c * 2 ^ j) by nia.
    destruct (representable_multiple c j g Hj Hg Hc Hbig) as [t Ht].
    rewrite Ht in *.
    destruct (Z.eq_dec R 0) as [HR0|HR0].
    + rewrite (Hexact HR0). assert (q <= t) by nia. nia.
    + assert (q < t) by nia. nia.
Qed.

Lemma round_aux_bounds (M : positive) (E : Z) :
  let k := Z.log2 (Z.pos M) + 1 - 24 in
  0 <= k -> -149 <= E + k -> E + k < 104 ->
  exists m2 e2,
    binary_round_aux 24 128 false (Z.pos M) E loc_Exact
      = S754_finite false m2 e2
    /\ 2 ^ 23 <= Z.pos m2 < 2 ^ 24
    /\ E + k <= e2 <= E + k + 1
    /\ forall B c j, 0 <= E + B -> 0 <= j -> 0 <= c < 2 ^ 24 ->
         (c * 2 ^ j <= Z.pos M * 2 ^ (E + B) ->
          c * 2 ^ j <= Z.pos m2 * 2 ^ (e2 + B))
         /\ (Z.pos M * 2 ^ (E + B) <= c * 2 ^ j ->
             Z.pos m2 * 2 ^ (e2 + B) <= c * 2 ^ j).
Proof.
  intros k Hk Hlo Hhi.
  destruct (round_aux_normal M E Hk Hlo Hhi)
    as (m2 & e2 & r & Heq & Hm2 & He2 & Hr & Hcases & Hexact).
  fold k in Hr, Hcases, Hexact, He2.
  exists m2, e2. split; [assumption|]. split; [assumption|].
  split; [assumption|].
  intros B c j HB Hj Hc.
  pose proof (quotient_normal M Hk) as Hq. fold k in Hq.
  assert (Hval : Z.pos m2 * 2 ^ (e2 + B) = r * 2 ^ (k + (E + B))).
  { rewrite <- Hr, <- Z.mul_assoc, <- Z.pow_add_r by lia.
    do 2 f_equal. lia. }
  rewrite Hval.
  assert (Hpk : 0 < 2 ^ k) by (apply Z.pow_pos_nonneg; lia).
  assert (Hpa : 0 < 2 ^ (E + B)) by (apply Z.pow_pos_nonneg; lia).
  assert (Hpg : 2 ^ k * 2 ^ (E + B) = 2 ^ (k + (E + B)))
    by (rewrite (Z.pow_add_r 2 k (E + B)) by lia; reflexivity).
  assert (Hdm : Z.pos M = 2 ^ k * (Z.pos M / 2 ^ k) + Z.pos M mod 2 ^ k)
    by (apply Z.div_mod; lia).
  assert (Hmod : 0 <= Z.pos M mod 2 ^ k < 2 ^ k)
    by (apply Z.mod_pos_bound; lia).
  apply (round_between (Z.pos M) (Z.pos M / 2 ^ k) (Z.pos M mod 2 ^ k) r
           (2 ^ k) (2 ^ (E + B)) c j (k + (E + B)));
    first [assumption | lia].
Qed.

(** *** Aligning mantissas *)

Lemma shl_iter (m d : positive) :
  Z.pos (Pos.iter xO m d) = Z.pos m * 2 ^ Z.pos d.
Proof.
  induction d as [|d IH] using Pos.peano_ind.
  - cbn. lia.
  - rewrite Pos.iter_succ, Pos2Z.inj_xO, IH, Pos2Z.inj_succ.
    rewrite Z.pow_succ_r by lia. ring.
Qed.

Lemma shl_align_spec (mx : positive) (ex ex' : Z) :
  ex' <= ex ->
  snd (shl_align mx ex ex') = ex'
  /\ Z.pos (fst (shl_align mx ex ex')) = Z.pos mx * 2 ^ (ex - ex').
Proof.
  intros Hle. unfold shl_align.
  destruct (ex' - ex) as [|d|d] eqn:Hd; [|lia|]; cbn [fst snd].
  - replace (ex - ex') with 0 by lia. lia.
  - rewrite shl_iter. replace (ex - ex') with (Z.pos d) by lia. lia.
Qed.

Lemma shl_align_id (mx : positive) (ex ex' : Z) :
  ex <= ex' -> shl_align mx ex ex' = (mx, ex).
Proof.
  intros Hle. unfold shl_align.
  destruct (ex' - ex) as [|d|d] eqn:Hd; [reflexivity|reflexivity|lia].
Qed.

Lemma log2_between (z a : Z) :
  0 <= a -> 2 ^ a <= z < 2 ^ (a + 2) ->
  Z.log2 z = a \/ Z.log2 z = a + 1.
Proof.
  intros Ha [Hlo Hhi].
  assert (0 < 2 ^ a) by (apply Z.pow_pos_nonneg; lia).
  destruct (Z_lt_le_dec z (2 ^ (a + 1))) as [Hlt|Hge].
  - left. apply Z.log2_unique; lia.
  - right. apply Z.log2_unique; [lia|].
    replace (Z.succ (a + 1)) with (a + 2) by lia. lia.
Qed.

(** *** The draws of the unit interval *)

Lemma unit_interval_cases (u : float32) :
  F32.unit_interval u ->
  (exists b, u = S754_zero b)
  \/ (exists m e, u = S754_finite false m e
                  /\ -149 <= e <= -24 /\ Z.pos m < 2 ^ 24).
Proof.
  intros (Hvalid & Hge & Hlt).
  destruct u as [b|b| |s m e].
  - left. by exists b.
  - destruct b; discriminate.
  - discriminate.
  - right. destruct s; [discriminate|]. exists m, e. split; [reflexivity|].
    unfold F32.valid, valid_binary, bounded, canonical_mantissa in Hvalid.
    apply andb_true_iff in Hvalid as [Hcanon _].
    apply Z.eqb_eq in Hcanon. rewrite Zdigits2_log2 in Hcanon.
    unfold fexp, emin, F32.prec, F32.emax in Hcanon.
    pose proof (log2_bounds m) as [Hlo Hhi].
    assert (Hm : Z.pos m < 2 ^ 24).
    { eapply Z.lt_le_trans; [exact Hhi|].
      apply Z.pow_le_mono_r; lia. }
    split; [|exact Hm].
    unfold F32.ltb, SFltb in Hlt.
    change F32.one with (S754_finite false 8388608 (-23)) in Hlt.
    cbn [SFcompare] in Hlt.
    destruct (Z.compare_spec e (-23)) as [He|He|He]; [|lia|discriminate].
    exfalso. subst e.
    assert (Z.log2 (Z.pos m) = 23) as Hl by lia.
    rewrite Hl in Hlo.
    destruct (Pos.compare_cont Eq m 8388608) eqn:Hc; try discriminate.
    assert (Z.pos m < 8388608) as Hm23 by exact Hc.
    change (2 ^ 23) with 8388608 in Hlo. clear -Hm23 Hlo. lia.
Qed.

(** *** The factor [0.5 + rand.Float32()] *)

(** For a draw of the unit interval the factor is a normal float32 between
    0.5 and 1.5, both included: its exponent is -24 (values in [[0.5, 1)])
    or -23 with a mantissa of at most [3 * 2^22] (values in [[1, 1.5]]). *)
Lemma factor_range (u : float32) :
  F32.unit_interval u ->
  exists m e,
    F32.add F32.half u = S754_finite false m e
    /\ 2 ^ 23 <= Z.pos m < 2 ^ 24
    /\ (e = -24 \/ (e = -23 /\ Z.pos m <= 3 * 2 ^ 22)).
Proof.
  intros Hu.
  destruct (unit_interval_cases u Hu) as [[b ->]|(m & e & -> & He & Hm)].
  { exists 8388608%positive, (-24). split; [reflexivity|]. lia. }
  unfold F32.add. change F32.half with (S754_finite false 8388608 (-24)).
  cbn [SFadd cond_Zopp].
  rewrite Z.min_r by lia.
  rewrite (shl_align_id m e e) by lia. cbn [fst].
  destruct (shl_align_spec 8388608 (-24) e ltac:(lia)) as [_ Ha].
  set (a := fst (shl_align 8388608 (-24) e)) in *.
  change (Z.pos a + Z.pos m) with (Z.pos (a + m)).
  unfold binary_normalize, binary_round, F32.prec, F32.emax.
  set (M := (a + m)%positive).
  assert (HM : Z.pos M = 2 ^ (-1 - e) + Z.pos m).
  { unfold M. rewrite Pos2Z.inj_add, Ha.
    change 8388608 with (2 ^ 23). rewrite <- Z.pow_add_r by lia.
    do 2 f_equal. lia. }
  assert (Hp : 0 < 2 ^ (-1 - e)) by (apply Z.pow_pos_nonneg; lia).
  assert (Hp24 : 2 ^ 24 <= 2 * 2 ^ (-1 - e)).
  { change 2 with (2 ^ 1) at 2. rewrite <- Z.pow_add_r by lia.
    apply Z.pow_le_mono_r; lia. }
  assert (Hlog : Z.log2 (Z.pos M) = -1 - e \/ Z.log2 (Z.pos M) = -1 - e + 1).
  { apply log2_between; [lia|]. split; [lia|].
    rewrite (Z.pow_add_r 2 (-1 - e) 2) by lia. change (2 ^ 2) with 4. lia. }
  rewrite Zdigits2_log2.
  rewrite shl_align_id by (unfold fexp, emin; lia).
  destruct (round_aux_bounds M e) as (m2 & e2 & -> & Hm2 & He2 & Hb);
    [lia | lia | lia |].
  exists m2, e2. split; [reflexivity|]. split; [exact Hm2|].
  destruct (Hb (- e) 1 (-1 - e) ltac:(lia) ltac:(lia) ltac:(lia)) as [Hlo _].
  destruct (Hb (- e) 3 (-1 - e) ltac:(lia) ltac:(lia) ltac:(lia)) as [_ Hhi].
  replace (e + - e) with 0 in Hlo, Hhi by lia.
  rewrite Z.pow_0_r, Z.mul_1_r in Hlo, Hhi.
  specialize (Hlo ltac:(lia)). specialize (Hhi ltac:(lia)).
  clear Hb.
  assert (He2' : e2 = -24 \/ e2 = -23 \/ e2 = -22) by lia.
  destruct He2' as [->|[->| ->]].
  - left. reflexivity.
  - right. split; [reflexivity|].
    replace (-1 - e) with (22 + (-23 + - e)) in Hhi by lia.
    rewrite (Z.pow_add_r 2 22 (-23 + - e)) in Hhi by lia.
    assert (0 < 2 ^ (-23 + - e)) by (apply Z.pow_pos_nonneg; lia).
    nia.
  - exfalso.
    assert (Hscale : 2 ^ 23 * 2 ^ (-22 + - e) = 2 ^ 2 * 2 ^ (-1 - e)).
    { rewrite <- !Z.pow_add_r by lia. f_equal. lia. }
    assert (0 < 2 ^ (-22 + - e)) by (apply Z.pow_pos_nonneg; lia).
    change (2 ^ 2) with 4 in Hscale. nia.
Qed.

(** *** [float32(i)] for a positive integer *)

(** The conversion yields a normal float32, and a number that float32
    holds exactly is never crossed: if it is below (above) the integer it
    is below (above) the float as well.  Values are compared after
    scaling by [2^B], which makes them integers. *)
Lemma of_int64_bounds (q : Z) :
  0 < q < 2 ^ 63 ->
  exists mf ef,
    F32.of_int64 q = S754_finite false mf ef
    /\ 2 ^ 23 <= Z.pos mf < 2 ^ 24
    /\ -23 <= ef <= 40
    /\ forall B c j, 23 <= B -> 0 <= j -> 0 <= c < 2 ^ 24 ->
         (c * 2 ^ j <= q * 2 ^ B -> c * 2 ^ j <= Z.pos mf * 2 ^ (ef + B))
         /\ (q * 2 ^ B <= c * 2 ^ j -> Z.pos mf * 2 ^ (ef + B) <= c * 2 ^ j).
Proof.
  intros Hq. destruct q as [|Q|Q]; [lia| |lia].
  unfold F32.of_int64, binary_normalize, binary_round, F32.prec, F32.emax.
  rewrite Zdigits2_log2.
  pose proof (log2_bounds Q) as [Hlo Hhi].
  pose proof (Z.log2_nonneg (Z.pos Q)) as HL0.
  assert (HL : Z.log2 (Z.pos Q) < 63).
  { apply Z.log2_lt_pow2; lia. }
  set (L := Z.log2 (Z.pos Q)) in *.
  assert (Hf : fexp 24 128 (L + 1 + 0) = L - 23).
  { unfold fexp, emin. lia. }
  rewrite Hf.
  destruct (Z_le_gt_dec 23 L) as [Hbig|Hsmall].
  - rewrite shl_align_id by lia.
    destruct (round_aux_bounds Q 0) as (m2 & e2 & -> & Hm2 & He2 & Hb);
      fold L; [lia | lia | lia |].
    fold L in He2.
    exists m2, e2. split; [reflexivity|]. split; [exact Hm2|].
    split; [lia|].
    intros B c j HB Hj Hc.
    specialize (Hb B c j ltac:(lia) Hj Hc).
    replace (0 + B) with B in Hb by lia. exact Hb.
  - destruct (shl_align_spec Q 0 (L - 23) ltac:(lia)) as [He Hm].
    destruct (shl_align Q 0 (L - 23)) as [mz ez]. cbn [fst snd] in He, Hm.
    subst ez.
    replace (0 - (L - 23)) with (23 - L) in Hm by lia.
    assert (Hpow : 2 ^ L * 2 ^ (23 - L) = 2 ^ 23).
    { rewrite <- Z.pow_add_r by lia. f_equal. lia. }
    assert (Hpow' : 2 ^ (L + 1) * 2 ^ (23 - L) = 2 ^ 24).
    { rewrite <- Z.pow_add_r by lia. f_equal. lia. }
    assert (Hp : 0 < 2 ^ (23 - L)) by (apply Z.pow_pos_nonneg; lia).
    assert (Hmz : 2 ^ 23 <= Z.pos mz < 2 ^ 24).
    { rewrite Hm, <- Hpow, <- Hpow'. nia. }
    assert (Hlz : Z.log2 (Z.pos mz) = 23).
    { apply Z.log2_unique; [lia|]. exact Hmz. }
    destruct (round_aux_bounds mz (L - 23)) as (m2 & e2 & -> & Hm2 & He2 & Hb);
      rewrite ?Hlz; [lia | lia | lia |].
    rewrite Hlz in He2.
    exists m2, e2. split; [reflexivity|]. split; [exact Hm2|].
    split; [lia|].
    intros B c j HB Hj Hc.
    specialize (Hb B c j ltac:(lia) Hj Hc).
    assert (Hscale : Z.pos mz * 2 ^ (L - 23 + B) = Z.pos Q * 2 ^ B).
    { rewrite Hm, <- Z.mul_assoc, <- Z.pow_add_r by lia.
      do 2 f_equal. lia. }
    rewrite Hscale in Hb. exact Hb.
Qed.

Lemma exact_representable (z : Z) :
  0 < z < 2 ^ 63 -> F32.exact z = true ->
  exists c j, 0 <= j /\ 0 <= c < 2 ^ 24 /\ z = c * 2 ^ j.
Proof.
  intros Hz Hex.
  destruct (of_int64_bounds z Hz) as (mf & ef & Heq & Hmf & Hef & _).
  unfold F32.exact in Hex. rewrite Heq in Hex. apply Z.eqb_eq in Hex.
  unfold F32.to_int64 in Hex.
  destruct (Z.leb_spec 0 ef) as [Hpos|Hneg].
  - destruct ((Int64.min_int <=? _) && _) eqn:Hrange.
    + exists (Z.pos mf), ef. lia.
    + unfold Int64.min_int in Hex. lia.
  - assert (Hp : 0 < 2 ^ (- ef)) by (apply Z.pow_pos_nonneg; lia).
    assert (Hdiv : 0 <= Z.pos mf / 2 ^ (- ef) <= Z.pos mf).
    { split; [apply Z.div_pos; lia|].
      apply Z.div_le_upper_bound; [lia|]. nia. }
    destruct ((Int64.min_int <=? _) && _) eqn:Hrange.
    + exists z, 0. rewrite Z.pow_0_r. lia.
    + unfold Int64.min_int in Hex. lia.
Qed.

Lemma of_int64_exact (z c j : Z) :
  0 < z < 2 ^ 63 -> 0 <= j -> 0 <= c < 2 ^ 24 -> z = c * 2 ^ j ->
  exists mf ef,
    F32.of_int64 z = S754_finite false mf ef
    /\ 2 ^ 23 <= Z.pos mf < 2 ^ 24
    /\ -23 <= ef <= 40
    /\ Z.pos mf * 2 ^ (ef + 23) = z * 2 ^ 23.
Proof.
  intros Hz Hj Hc Hrep.
  destruct (of_int64_bounds z Hz) as (mf & ef & Heq & Hmf & Hef & Hb).
  exists mf, ef. split; [exact Heq|]. split; [exact Hmf|]. split; [exact Hef|].
  destruct (Hb 23 c (j + 23) ltac:(lia) ltac:(lia) Hc) as [Hlo Hhi].
  assert (Hscale : c * 2 ^ (j + 23) = z * 2 ^ 23).
  { rewrite Hrep, Z.pow_add_r by lia. ring. }
  rewrite Hscale in Hlo, Hhi. lia.
Qed.

Lemma three_divides_mantissa (j : Z) :
  0 <= j -> forall c K, 3 * K = c * 2 ^ j -> exists c', c = 3 * c'.
Proof.
  intros Hj. pattern j. apply natlike_ind; [| |exact Hj]; clear j Hj.
  - intros c K HK. exists K. rewrite Z.pow_0_r in HK. lia.
  - intros j Hj IH c K HK. rewrite Z.pow_succ_r in HK by lia.
    destruct (IH (2 * c) K ltac:(lia)) as [c' Hc'].
    exists (c - c'). lia.
Qed.

(** *** The jittered sleep *)

(** For a lease of [8 * K] nanoseconds whose three eighths [3 * K] float32
    holds exactly, the sleep lies between [K] and [3 * K] for every draw
    of the unit interval. *)
Lemma sleepDuration_bounds (K : Z) (u : float32) :
  0 <= K -> 3 * K <= Int64.max_int ->
  F32.exact (3 * K) = true ->
  F32.unit_interval u ->
  K <= sleepDuration (8 * K) u <= 3 * K.
Proof.
  intros HK Hmax Hex Hu. unfold Int64.max_int in Hmax.
  unfold sleepDuration, Int64.div.
  assert (Hquot : Z.quot (8 * K) 4 = 2 * K).
  { rewrite Z.quot_div_nonneg by lia. symmetry.
    apply Z.div_unique with 0; lia. }
  rewrite Hquot.
  destruct (factor_range u Hu) as (ms & es & -> & Hms & Hes).
  destruct (Z.eq_dec K 0) as [->|HK0].
  { change (F32.of_int64 (2 * 0)) with (S754_zero false). cbn. lia. }
  destruct (exact_representable (3 * K) ltac:(lia) Hex)
    as (c3 & j3 & Hj3 & Hc3 & H3K).
  destruct (three_divides_mantissa j3 Hj3 c3 K H3K) as [cK ->].
  assert (HKrep : K = cK * 2 ^ j3) by lia.
  destruct (of_int64_exact (2 * K) cK (j3 + 1)) as (mf & ef & -> & Hmf & Hef & Hf);
    [lia | lia | lia | rewrite Z.pow_add_r by lia; lia |].
  unfold F32.mul, F32.prec, F32.emax. cbn [SFmul xorb].
  change (Z.pos (mf * ms)) with (Z.pos mf * Z.pos ms).
  (* the scaled factor *)
  set (S := Z.pos ms * 2 ^ (es + 24)).
  assert (HS : 2 ^ 23 <= S <= 3 * 2 ^ 23).
  { unfold S. destruct Hes as [->|[-> Hle]]; cbn; lia. }
  assert (Hprod : 2 ^ 46 <= Z.pos mf * Z.pos ms < 2 ^ 48).
  { change (2 ^ 46) with (2 ^ 23 * 2 ^ 23).
    change (2 ^ 48) with (2 ^ 24 * 2 ^ 24). split.
    - apply Z.mul_le_mono_nonneg; lia.
    - apply Z.mul_lt_mono_nonneg; lia. }
  assert (Hlog : Z.log2 (Z.pos mf * Z.pos ms) = 46
                 \/ Z.log2 (Z.pos mf * Z.pos ms) = 46 + 1).
  { apply log2_between; [lia|]. exact Hprod. }
  assert (Hes' : -24 <= es <= -23) by lia.
  change (Z.pos mf * Z.pos ms) with (Z.pos (mf * ms)) in Hlog |- *.
  destruct (round_aux_bounds (mf * ms) (ef + es))
    as (mp & ep & -> & Hmp & Hep & Hb); [lia | lia | lia |].
  destruct (Hb 47 cK (j3 + 47) ltac:(lia) ltac:(lia) ltac:(lia)) as [Hlo _].
  destruct (Hb 47 (3 * cK) (j3 + 47) ltac:(lia) ltac:(lia) ltac:(lia))
    as [_ Hhi].
  clear Hb.
  assert (Hexact : Z.pos (mf * ms) * 2 ^ (ef + es + 47) = 2 * K * 2 ^ 23 * S).
  { unfold S. rewrite <- Hf, Pos2Z.inj_mul.
    replace (ef + es + 47) with ((ef + 23) + (es + 24)) by lia.
    rewrite Z.pow_add_r by lia. ring. }
  rewrite Hexact in Hlo, Hhi.
  assert (HK47 : cK * 2 ^ (j3 + 47) = K * 2 ^ 47).
  { rewrite HKrep, Z.pow_add_r by lia. ring. }
  assert (H3K47 : 3 * cK * 2 ^ (j3 + 47) = 3 * K * 2 ^ 47).
  { rewrite HKrep, Z.pow_add_r by lia. ring. }
  rewrite HK47 in Hlo. rewrite H3K47 in Hhi.
  assert (Hlo' : K * 2 ^ 47 <= Z.pos mp * 2 ^ (ep + 47)).
  { apply Hlo. change (2 ^ 47) with (2 ^ 23 * 2 * 2 ^ 23).
    replace (K * (2 ^ 23 * 2 * 2 ^ 23)) with (2 * K * 2 ^ 23 * 2 ^ 23) by ring.
    apply Z.mul_le_mono_nonneg_l; lia. }
  assert (Hhi' : Z.pos mp * 2 ^ (ep + 47) <= 3 * K * 2 ^ 47).
  { apply Hhi. change (2 ^ 47) with (2 ^ 23 * 2 * 2 ^ 23).
    replace (3 * K * (2 ^ 23 * 2 * 2 ^ 23))
      with (2 * K * 2 ^ 23 * (3 * 2 ^ 23)) by ring.
    apply Z.mul_le_mono_nonneg_l; lia. }
  clear Hlo Hhi Hexact.
  (* back to an int64 *)
  unfold F32.to_int64.
  assert (Hval : K <= (if 0 <=? ep then Z.pos mp * 2 ^ ep
                       else Z.pos mp / 2 ^ (- ep)) <= 3 * K).
  { destruct (Z.leb_spec 0 ep) as [Hpos|Hneg].
    - rewrite (Z.pow_add_r 2 ep 47) in Hlo', Hhi' by lia. lia.
    - assert (Hp : 0 < 2 ^ (- ep)) by (apply Z.pow_pos_nonneg; lia).
      assert (Hp' : 0 < 2 ^ (ep + 47)) by (apply Z.pow_pos_nonneg; lia).
      assert (Hsplit : 2 ^ 47 = 2 ^ (- ep) * 2 ^ (ep + 47)).
      { rewrite <- Z.pow_add_r by lia. f_equal. lia. }
      rewrite Hsplit, Z.mul_assoc in Hlo', Hhi'.
      apply Z.mul_le_mono_pos_r in Hlo', Hhi'; [|exact Hp'..].
      split.
      + apply Z.div_le_lower_bound; lia.
      + apply Z.div_le_upper_bound; lia. }
  set (a := if 0 <=? ep then _ else _) in *.
  replace ((Int64.min_int <=? a) && (a <=? Int64.max_int)) with true; [lia|].
  symmetry. apply andb_true_iff. unfold Int64.min_int, Int64.max_int.
  split; apply Z.leb_le; lia.
Qed.

Lemma factor_between_half_and_three_halves (u : float32) :
  F32.unit_interval u ->
  F32.leb F32.half (F32.add F32.half u) = true
  /\ F32.leb (F32.add F32.half u) F32.three_halves = true.
Proof.
  intros Hu. destruct (factor_range u Hu) as (m & e & -> & Hm & He).
  change F32.half with (S754_finite false 8388608 (-24)).
  change F32.three_halves with (S754_finite false 12582912 (-23)).
  unfold F32.leb, SFleb. cbn [SFcompare].
  destruct He as [->|[-> Hle]]; cbn [Z.compare].
  - split; [|reflexivity].
    destruct (Pos.compare_cont Eq 8388608 m) eqn:Hc; try reflexivity.
    exfalso. assert (8388608 > Z.pos m) as Hgt by exact Hc.
    change (2 ^ 23) with 8388608 in Hm. clear -Hgt Hm. lia.
  - split; [reflexivity|].
    destruct (Pos.compare_cont Eq m 12582912) eqn:Hc; try reflexivity.
    exfalso. assert (Z.pos m > 12582912) as Hgt by exact Hc.
    change (3 * 2 ^ 22) with 12582912 in Hle. clear -Hgt Hle. lia.
Qed.

(** C6, as the code has it: the sleep is [float32(ttl/4)] times the
    factor [0.5 + U], cut to an integer, where [U] is the draw; for a draw
    of the unit interval the factor lies between 0.5 and 1.5. *)
Theorem sleep_factor_is_half_plus_draw (lease : Duration) (u : float32) :
  F32.unit_interval u ->
  sleepDuration lease u =
    F32.to_int64 (F32.mul (F32.of_int64 (Z.quot lease 4))
                          (F32.add F32.half u))
  /\ F32.leb F32.half (F32.add F32.half u) = true
  /\ F32.leb (F32.add F32.half u) F32.three_halves = true.
Proof.
  intros Hu. split; [reflexivity|].
  exact (factor_between_half_and_three_halves u Hu).
Qed.

Lemma sleep_factor_is_half_plus_draw_witness :
  F32.leb (F32.add F32.half Examples.below_one) F32.three_halves = true.
Proof.
  eapply (sleep_factor_is_half_plus_draw Second Examples.below_one).
  repeat split; reflexivity.
Defined.

(** C6, as the claim words it, fails: for the draw 0.75 the factor is
    1.25, which is not below 1.0, and the sleep of a one-second lease is
    312.5 ms, more than the quarter of the lease; for the largest draw
    below 1 the factor is 1.5. *)
Lemma sleep_factor_exceeds_one :
  F32.unit_interval Examples.three_quarters
  /\ F32.add F32.half Examples.three_quarters = F32.lit 5 (-2)
  /\ F32.ltb (F32.add F32.half Examples.three_quarters) F32.one = false
  /\ sleepDuration Second Examples.three_quarters = 312500000
  /\ Z.quot Second 4 = 250000000
  /\ F32.unit_interval Examples.below_one
  /\ F32.add F32.half Examples.below_one = F32.three_halves
  /\ sleepDuration Second Examples.below_one = 375000000.
Proof. vm_compute. repeat split; reflexivity. Qed.

(** C3, as the code has it: in a cycle that returns true the last thing
    the actor does is the jittered sleep; when the lease is a non-negative
    multiple of 8 ns whose three eighths float32 holds exactly (the one
    second of [run] is such a lease), that sleep lies between one eighth
    and three eighths of the lease, for all draws of the unit interval. *)
Theorem jitter_within_bounds (w : World) (st : State) :
  0 <= ttl st <= Int64.max_int ->
  ttl st mod 8 = 0 ->
  F32.exact (3 * (ttl st / 8)) = true ->
  (forall n, F32.unit_interval (float32s w n)) ->
  continues (cycle w st) = true ->
  exists d,
    last (observed (cycle w st)) = Some (OSleep d)
    /\ ttl st <= 8 * d <= 3 * ttl st.
Proof.
  intros Hrange Hmod Hex Hdraws.
  assert (Hbound : forall u, F32.unit_interval u ->
            ttl st <= 8 * sleepDuration (ttl st) u <= 3 * ttl st).
  { intros u Hu.
    assert (H8 : ttl st = 8 * (ttl st / 8)).
    { pose proof (Z.div_mod (ttl st) 8 ltac:(lia)). lia. }
    pose proof (sleepDuration_bounds (ttl st / 8) u) as Hb.
    rewrite <- H8 in Hb. unfold Int64.max_int in *.
    specialize (Hb ltac:(lia) ltac:(lia) Hex Hu). lia. }
  case_cycle w st; intros Hcont; try discriminate.
  all: eexists; split; [reflexivity|]; apply Hbound, Hdraws.
Qed.

Lemma jitter_within_bounds_witness :
  exists d,
    last (observed (cycle (world_of [inr (Examples.held_by "12" 8)]
                                    [Examples.below_one])
                          Examples.actor7)) = Some (OSleep d)
    /\ 1000000000 <= 8 * d <= 3 * 1000000000.
Proof.
  apply (jitter_within_bounds
           (world_of [inr (Examples.held_by "12" 8)] [Examples.below_one])
           Examples.actor7).
  - vm_compute. split; discriminate.
  - reflexivity.
  - vm_compute. reflexivity.
  - intros [|[|n]]; vm_compute; repeat split; reflexivity.
  - reflexivity.
Defined.

(** C3, as the claim words it, fails: for a lease of 134217704 ns (a
    multiple of 8) and the largest draw below 1, a follower's cycle ends
    with a sleep of 50331640 ns, one more than three eighths of the
    lease, 50331639 ns. *)
Lemma jitter_exceeds_three_eighths :
  let st := mkState "shard-5" "7" false 134217704 in
  let w := world_of [inr (Examples.held_by "12" 8)] [Examples.below_one] in
  F32.unit_interval (float32s w 0)
  /\ continues (cycle w st) = true
  /\ last (observed (cycle w st)) = Some (OSleep 50331640)
  /\ 3 * ttl st = 8 * 50331639
  /\ ~ (8 * 50331640 <= 3 * ttl st).
Proof.
  vm_compute. repeat split; try reflexivity.
  intros Hle. apply Hle. reflexivity.
Qed.

(** ** The actor linked with the client *)

(** Linked with the client, a [Put] of the actor is the method [Put]: the
    request whose body [Put_encodes_directives] describes. *)
Lemma link_client_Put
    (url_Parse_error : string -> option error)
    (json_Unmarshal : string -> error + EtcdResponse)
    (c : EtcdClient) (k v : string) (o : Option.t) :
  link url_Parse_error json_Unmarshal c (client_Put k v o)
  = bind (inject (Put url_Parse_error json_Unmarshal c k v o)) Ret.
Proof. reflexivity. Qed.

Lemma link_client_Get
    (url_Parse_error : string -> option error)
    (json_Unmarshal : string -> error + EtcdResponse)
    (c : EtcdClient) (k : string) (o : Option.t) :
  link url_Parse_error json_Unmarshal c (client_Get k o)
  = bind (inject (Get url_Parse_error json_Unmarshal c k o)) Ret.
Proof. reflexivity. Qed.

(** ** The loop of [run] *)

Lemma interp_state_bind {E S A B} (h : forall X, E X -> S -> S * X)
    (m : Prog E A) (f : A -> Prog E B) (s : S) :
  interp_state h (bind m f) s =
    let '(s', a) := interp_state h m s in interp_state h (f a) s'.
Proof.
  revert s. induction m as [a|X e k IH]; intros s; cbn; [reflexivity|].
  destruct (h X e s) as [s' x]. apply IH.
Qed.

(** The loop of [run] makes one cycle and, when [loop] returned false,
    nothing more: what is observed of the actor ends with that cycle. *)
Lemma run_ends_with_stopping_cycle (w : World) (st : State) (n : nat) :
  continues (cycle w st) = false ->
  let '(r, st') := interp_state (answer w) (cycles (S n) st) start in
  trace r = observed (cycle w st) /\ st' = final (cycle w st).
Proof.
  unfold cycle. cbn [cycles]. unfold mbind, Prog_bind.
  rewrite interp_state_bind.
  destruct (interp_state (answer w) (loop st) start) as [r [st' ok]].
  cbn. intros ->. cbn. done.
Qed.

(** When [loop] returned true the loop of [run] goes on with the next
    cycle, from the state the cycle left. *)
Lemma run_goes_on_after_cycle (w : World) (st : State) (n : nat) :
  continues (cycle w st) = true ->
  exists r,
    interp_state (answer w) (loop st) start = (r, (final (cycle w st), true))
    /\ interp_state (answer w) (cycles (S n) st) start
       = interp_state (answer w) (cycles n (final (cycle w st))) r.
Proof.
  unfold cycle. cbn [cycles]. unfold mbind, Prog_bind.
  rewrite interp_state_bind.
  destruct (interp_state (answer w) (loop st) start) as [r [st' ok]].
  cbn. intros ->. exists r. done.
Qed.


(** * Further properties of the client *)

(** X1: [Get] looks at nothing of its options but [wait]: it sends a GET
    without body and without headers to the URL of the key, followed by
    [?wait=true] when [wait] is set and by a bare [?] otherwise, and two
    option bundles with the same [wait] give the same program. *)
Theorem Get_depends_on_wait_only
    (url_Parse_error : string -> option error)
    (json_Unmarshal : string -> error + EtcdResponse)
    (c : EtcdClient) (k : string) (o : Option.t) :
  match Get url_Parse_error json_Unmarshal c k o with
  | Ret r =>
      exists err, r = inl err
        /\ url_Parse_error (url_of c (CallGet k o)) = Some err
  | Vis e _ =>
      match e with
      | Do req =>
          Method req = "GET"%string
          /\ URL req =
               MakeURL c k +:+ (if Option.wait o then "?wait=true" else "?")
          /\ Body req = None
          /\ Headers req = ∅
      end
  end
  /\ forall ttl' prevExist' prevIndex',
       Get url_Parse_error json_Unmarshal c k
         (Option.mk ttl' (Option.wait o) prevExist' prevIndex')
       = Get url_Parse_error json_Unmarshal c k o.
Proof.
  split; [|reflexivity].
  unfold Get, NewRequest, url_of.
  assert (Hq : ("?" +:+ Encode (if Option.wait o
                                then Add "wait" "true" ∅ else ∅))
               = if Option.wait o then "?wait=true"%string else "?"%string).
  { destruct (Option.wait o); vm_compute; reflexivity. }
  rewrite Hq.
  destruct (url_Parse_error _) as [err|]; cbn.
  - by exists err.
  - done.
Qed.

(** X2: [Delete] is unconditional: whatever value and options it is given,
    it sends a DELETE without body and without headers to the URL of the
    key, so no precondition ever reaches the store. *)
Theorem Delete_ignores_value_and_options
    (url_Parse_error : string -> option error)
    (json_Unmarshal : string -> error + EtcdResponse)
    (c : EtcdClient) (k value : string) (o : Option.t) :
  match Delete url_Parse_error json_Unmarshal c k value o with
  | Ret r => exists err, r = inl err
                         /\ url_Parse_error (MakeURL c k) = Some err
  | Vis e _ =>
      match e with
      | Do req =>
          Method req = "DELETE"%string /\ URL req = MakeURL c k
          /\ Body req = None /\ Headers req = ∅
      end
  end
  /\ forall value' o',
       Delete url_Parse_error json_Unmarshal c k value' o'
       = Delete url_Parse_error json_Unmarshal c k value o.
Proof.
  split; [|reflexivity].
  unfold Delete, NewRequest.
  destruct (url_Parse_error _) as [err|]; cbn.
  - by exists err.
  - done.
Qed.

Lemma method_url
    (url_Parse_error : string -> option error)
    (json_Unmarshal : string -> error + EtcdResponse)
    (c : EtcdClient) (call : StoreCall) :
  method url_Parse_error json_Unmarshal c call =
    match url_Parse_error (url_of c call) with
    | Some err => Ret (inl err)
    | None =>
        Vis (Do (request_of c call))
          (fun r =>
             match r with
             | inl err => Ret (inl err)
             | inr resp =>
                 match ReadAll resp with
                 | inl err => Ret (inl err)
                 | inr body =>
                     match json_Unmarshal body with
                     | inl err => Ret (inl err)
                     | inr response => Ret (inr response)
                     end
                 end
             end)
    end.
Proof.
  destruct call as [k o|k v o|k v o]; cbn [method url_of request_of];
    unfold Get, Put, Delete, NewRequest.
  - assert (Hq : ("?" +:+ Encode (if Option.wait o
                                  then Add "wait" "true" ∅ else ∅))
                 = if Option.wait o then "?wait=true"%string else "?"%string).
    { destruct (Option.wait o); vm_compute; reflexivity. }
    rewrite Hq. destruct (url_Parse_error _); reflexivity.
  - destruct (url_Parse_error _); reflexivity.
  - destruct (url_Parse_error _); reflexivity.
Qed.

(** X3: a method of the client never retries: against any transport it
    sends no request when the URL does not parse, and exactly one
    otherwise; and it returns a response only when the transport answered
    that request, the body could be read, and the body decoded to that
    response. *)
Theorem client_method_sends_at_most_once
    (url_Parse_error : string -> option error)
    (json_Unmarshal : string -> error + EtcdResponse)
    (c : EtcdClient) (call : StoreCall)
    (net : nat -> Request -> error + Response) :
  let out := send net (method url_Parse_error json_Unmarshal c call) in
  match url_Parse_error (url_of c call) with
  | Some err => out = ([], inl err)
  | None =>
      exists req,
        fst out = [req] /\ req = request_of c call
        /\ URL req = url_of c call
        /\ forall response,
             snd out = inr response <->
             exists resp body,
               net O req = inr resp /\ ReadAll resp = inr body
               /\ json_Unmarshal body = inr response
  end.
Proof.
  intros out. subst out. rewrite method_url.
  destruct (url_Parse_error (url_of c call)) as [err|]; [reflexivity|].
  exists (request_of c call). unfold send.
  cbn [interp_state http_answer length app].
  destruct (net O (request_of c call)) as [err|resp] eqn:Hnet;
    [|destruct (ReadAll resp) as [err|body] eqn:Hread;
      [|destruct (json_Unmarshal body) as [err|r] eqn:Hju]];
    cbn; (split; [reflexivity|]); (split; [reflexivity|]);
    (split; [by destruct call|]); intros response.
  - split; [discriminate|]. intros (? & ? & ? & _). discriminate.
  - split; [discriminate|]. intros (? & ? & [= <-] & Hr & _). congruence.
  - split; [discriminate|]. intros (? & ? & [= <-] & Hr & Hj). congruence.
  - split.
    + intros [= <-]. by exists resp, body.
    + intros (? & ? & [= <-] & Hr & Hj). congruence.
Qed.

(** ** What the escaping keeps out of the body *)

Lemma occurrences_app (c : ascii) (s t : string) :
  occurrences c (s +:+ t) = (occurrences c s + occurrences c t)%nat.
Proof.
  induction s as [|c' s IH]; [reflexivity|].
  change (String c' s +:+ t) with (String c' (s +:+ t)).
  cbn [occurrences]. rewrite IH. lia.
Qed.

Lemma upperhex_unreserved (n : nat) : shouldEscape (upperhex n) = false.
Proof. do 16 (destruct n as [|n]; [reflexivity|]). reflexivity. Qed.

(** A byte that [QueryEscape] would escape, other than [+] and [%], does
    not occur in an escaped string. *)
Lemma QueryEscape_removes (c : ascii) (s : string) :
  shouldEscape c = true -> c <> "+"%char -> c <> "%"%char ->
  occurrences c (QueryEscape s) = O.
Proof.
  intros Hc Hplus Hpct.
  assert (Hne : forall c', shouldEscape c' = false -> Ascii.eqb c' c = false).
  { intros c' Hc'. apply Ascii.eqb_neq. intros ->. congruence. }
  induction s as [|c' s IH]; [reflexivity|].
  cbn [QueryEscape].
  destruct (shouldEscape c') eqn:Hesc.
  - destruct (Ascii.eqb c' " "); cbn [occurrences].
    + replace (Ascii.eqb "+" c) with false
        by (symmetry; apply Ascii.eqb_neq; congruence).
      exact IH.
    + replace (Ascii.eqb "%" c) with false
        by (symmetry; apply Ascii.eqb_neq; congruence).
      rewrite !Hne by apply upperhex_unreserved. exact IH.
  - cbn [occurrences]. rewrite (Hne c' Hesc). exact IH.
Qed.

Lemma occurrences_concat (c : ascii) (sep : string) (l : list string) :
  occurrences c (String.concat sep l) =
    (list_sum (map (occurrences c) l)
     + (length l - 1) * occurrences c sep)%nat.
Proof.
  induction l as [|s l IH]; [reflexivity|].
  destruct l as [|t l]; [cbn; lia|].
  change (String.concat sep (s :: t :: l))
    with (s +:+ sep +:+ String.concat sep (t :: l)).
  rewrite !occurrences_app, IH. cbn [map list_sum fold_right length].
  replace (S (S (length l)) - 1)%nat with (S (S (length l) - 1)) by lia.
  rewrite Nat.mul_succ_l. lia.
Qed.

(** X4: whatever the value and the options, the body [Put] sends has one
    [=] for each of its fields and one [&] between two fields: no byte of
    the value can add a field or a directive to the request. *)
Theorem Put_body_cannot_be_injected (value : string) (o : Option.t) :
  let fields := Encode_fields (Put_values value o) in
  let body := Encode (Put_values value o) in
  occurrences "=" body = length fields
  /\ occurrences "&" body = (length fields - 1)%nat
  /\ (1 <= length fields <= 4)%nat.
Proof.
  intros fields body. subst fields body. unfold Encode.
  destruct (Put_values_fields value o _ _ eq_refl eq_refl)
    as (_ & _ & _ & _ & ->).
  rewrite !occurrences_concat.
  assert (Heq : forall s, occurrences "=" (QueryEscape s) = O)
    by (intros s; apply QueryEscape_removes; [reflexivity|discriminate..]).
  assert (Hamp : forall s, occurrences "&" (QueryEscape s) = O)
    by (intros s; apply QueryEscape_removes; [reflexivity|discriminate..]).
  destruct (Option.prevExist o =? 1), (Option.prevExist o =? -1),
    (Option.prevIndex o =? 0), (Option.ttl o =? 0);
    cbn [app map list_sum fold_right length];
    rewrite ?occurrences_app, ?Heq, ?Hamp; cbn; lia.
Qed.

(** X5: a lease of less than one second is sent as [ttl=0]: [Put] encodes
    the lease in whole seconds, cut toward zero. *)
Theorem Put_subsecond_ttl_is_zero (value : string) (o : Option.t) :
  Option.ttl o <> 0 ->
  - Second < Option.ttl o < Second ->
  Put_values value o !! "ttl"%string = Some ["0"%string].
Proof.
  intros Hnz Hsmall.
  destruct (Put_values_fields value o _ _ eq_refl eq_refl)
    as (_ & -> & _).
  replace (Option.ttl o =? 0) with false by (symmetry; by apply Z.eqb_neq).
  assert (Hq : Int64.div (Option.ttl o) Second = 0).
  { unfold Int64.div, Second in *.
    destruct (Z_lt_le_dec (Option.ttl o) 0) as [Hneg|Hpos].
    - replace (Option.ttl o) with (- - Option.ttl o) by lia.
      rewrite Z.quot_opp_l by lia. rewrite Z.quot_small by lia. reflexivity.
    - apply Z.quot_small. lia. }
  rewrite Hq. reflexivity.
Qed.

Lemma Put_subsecond_ttl_is_zero_witness :
  Put_values "7" (Option.mk 500000000 false 0 8) !! "ttl"%string
  = Some ["0"%string].
Proof.
  apply Put_subsecond_ttl_is_zero.
  - discriminate.
  - vm_compute. split; reflexivity.
Defined.


(** * Further properties of one cycle *)

(** X6: in every cycle the first thing the actor does is the [Get] of its
    leader key without [wait], and it is the only [Get]; every other store
    call is a [Put] of its own id on its leader key or its broadcast key,
    at most two of them; no [Delete] is ever issued; at most two draws are
    made. *)
Theorem cycle_call_discipline (w : World) (st : State) :
  (exists a rest,
     observed (cycle w st) =
       OStore (CallGet (key st +:+ "-leader") (Option.mk 0 false 0 0)) a
       :: rest
     /\ List.filter is_get rest = [])
  /\ Forall (own_call st) (observed (cycle w st))
  /\ (length (List.filter is_write (observed (cycle w st))) <= 2)%nat
  /\ (length (List.filter is_draw (observed (cycle w st))) <= 2)%nat.
Proof.
  case_cycle w st; cbn;
    (split; [eexists _, _; split; reflexivity|]);
    (split; [repeat (apply Forall_cons; split; [by cbn; auto|]);
             apply Forall_nil_2|]);
    cbn; lia.
Qed.

(** A cycle changes nothing of the state but [leader]. *)
Lemma cycle_keeps_identity (w : World) (st : State) :
  key (final (cycle w st)) = key st
  /\ id (final (cycle w st)) = id st
  /\ ttl (final (cycle w st)) = ttl st.
Proof. case_cycle w st; done. Qed.

(** X7: [leader] changes only on the verdict of the store: it turns true
    only in a cycle whose acquisition [Put] was answered with code 0, and
    it turns false only in a cycle whose renewal [Put] was answered with a
    nonzero code. *)
Theorem leader_changes_on_store_verdict (w : World) (st : State) :
  (leader st = false -> leader (final (cycle w st)) = true ->
   exists r1,
     OStore (CallPut (key st +:+ "-leader") (id st)
               (Option.mk 0 false (-1) 0)) (inr r1)
       ∈ observed (cycle w st)
     /\ ErrorCode r1 = 0)
  /\ (leader st = true -> leader (final (cycle w st)) = false ->
      exists o r1,
        OStore (CallPut (key st +:+ "-leader") (id st) o) (inr r1)
          ∈ observed (cycle w st)
        /\ Option.prevExist o = 0
        /\ ErrorCode r1 <> 0).
Proof.
  case_cycle w st; (split; intros Hbefore Hafter);
    try (cbn in Hafter; congruence).
  all: first
    [ exists r1; split; [|assumption]; cbn [app]; rewrite !elem_of_cons;
      by auto 10
    | exists (Option.mk (ttl st) false 0 (ModifiedIndex (node r0))), r1;
      split; [|done]; cbn [app]; rewrite !elem_of_cons; by auto 10
    | destruct (leader st); discriminate ].
Qed.

Lemma leader_changes_on_store_verdict_witness :
  exists r1,
    OStore (CallPut "shard-5-leader" "7" (Option.mk 0 false (-1) 0)) (inr r1)
      ∈ observed (cycle
           (world_of [inr Examples.absent; inr (Examples.written "7" 4);
                      inr (Examples.written "7" 5)] [Examples.eighth])
           Examples.actor7)
    /\ ErrorCode r1 = 0.
Proof.
  apply (proj1 (leader_changes_on_store_verdict
                  (world_of [inr Examples.absent;
                             inr (Examples.written "7" 4);
                             inr (Examples.written "7" 5)]
                            [Examples.eighth])
                  Examples.actor7)); reflexivity.
Defined.

Lemma cycle_stop_shape (w : World) (st : State) :
  continues (cycle w st) = false ->
  exists before c err,
    observed (cycle w st) =
      before ++ [OStore c (inl err); OPrint (id st) "error: %s" [err]]
    /\ existsb is_transport_error before = false
    /\ final (cycle w st) = st.
Proof.
  case_cycle w st; intros Hstop; try discriminate.
  all: match goal with
       | |- exists _ _ _, ?l = _ /\ _ =>
           match l with
           | context [OStore ?c (inl ?e)] =>
               let pre := eval cbn in (removelast (removelast l)) in
               exists pre, c, e
           end
       end; cbn; done.
Qed.

(** X8: a cycle that returns false ends with the store call that failed
    and the one line that logs its error; every call before it was
    answered, and the state is what it was when the cycle began. *)
Theorem stopping_cycle_ends_with_logged_error (w : World) (st : State) :
  continues (cycle w st) = false ->
  exists before c err,
    observed (cycle w st) =
      before ++ [OStore c (inl err); OPrint (id st) "error: %s" [err]]
    /\ existsb is_transport_error before = false
    /\ final (cycle w st) = st.
Proof.
  case_cycle w st; intros Hstop; try discriminate.
  all: match goal with
       | |- exists _ _ _, ?l = _ /\ _ =>
           match l with
           | context [OStore ?c (inl ?e)] =>
               let pre := eval cbn in (removelast (removelast l)) in
               exists pre, c, e
           end
       end; cbn; done.
Qed.

Lemma stopping_cycle_ends_with_logged_error_witness :
  exists before c err,
    observed (cycle (world_of [] []) Examples.actor7) =
      before ++ [OStore c (inl err); OPrint "7" "error: %s" [err]]
    /\ existsb is_transport_error before = false
    /\ final (cycle (world_of [] []) Examples.actor7) = Examples.actor7.
Proof.
  apply (stopping_cycle_ends_with_logged_error (world_of [] [])
           Examples.actor7).
  reflexivity.
Defined.

(** X9: the renewal is fenced by [prevIndex] only when the [Get] reported
    a nonzero [ModifiedIndex]: when it reported 0, the renewal [Put] the
    actor issues carries no [prevIndex] and no [prevExist] field, so it is
    an unconditional write of the leader key. *)
Theorem renewal_is_unfenced_at_index_zero (w : World) (st : State)
    (r0 : EtcdResponse) :
  store w 0 (CallGet (key st +:+ "-leader") (Option.mk 0 false 0 0)) = inr r0 ->
  ErrorCode r0 = 0 ->
  Value (node r0) = id st ->
  ModifiedIndex (node r0) = 0 ->
  exists o a,
    OStore (CallPut (key st +:+ "-leader") (id st) o) a
      ∈ observed (cycle w st)
    /\ Option.ttl o = ttl st
    /\ Put_values (id st) o !! "prevIndex"%string = None
    /\ Put_values (id st) o !! "prevExist"%string = None
    /\ Encode_fields (Put_values (id st) o) =
         (if ttl st =? 0 then []
          else ["ttl=" +:+ Itoa (Int64.div (ttl st) Second)])
         ++ ["value=" +:+ QueryEscape (id st)].
Proof.
  intros Hget0 Hcode Hval Hidx.
  exists (Option.mk (ttl st) false 0 0).
  assert (Hin : exists a,
            OStore (CallPut (key st +:+ "-leader") (id st)
                      (Option.mk (ttl st) false 0 0)) a
              ∈ observed (cycle w st)).
  { case_cycle w st; try congruence;
      match goal with
      | H : store w 0 _ = inr ?r |- _ =>
          assert (r = r0) by congruence; subst r
      end;
      rewrite Hidx; eexists; cbn [app]; rewrite !elem_of_cons;
      by eauto 10. }
  destruct Hin as [a Hin]. exists a. split; [exact Hin|].
  split; [reflexivity|].
  destruct (Put_values_fields (id st) (Option.mk (ttl st) false 0 0) _ _
              eq_refl eq_refl) as (_ & _ & He & Hi & Hf).
  cbn [Option.ttl Option.prevExist Option.prevIndex] in He, Hi, Hf.
  change (0 =? 1) with false in He, Hf.
  change (0 =? -1) with false in He, Hf.
  change (0 =? 0) with true in Hi, Hf.
  rewrite ?QueryEscape_Itoa in Hf. cbn [app] in He, Hi, Hf.
  split; [exact Hi|]. split; [exact He|exact Hf].
Qed.

Lemma renewal_is_unfenced_at_index_zero_witness :
  exists o a,
    OStore (CallPut "shard-5-leader" "7" o) a
      ∈ observed (cycle (world_of [inr (Examples.held_by "7" 0);
                                   inr (Examples.written "7" 9);
                                   inr (Examples.refused 105)]
                                  [Examples.three_quarters])
                        Examples.leader7)
    /\ Option.ttl o = 1000000000
    /\ Put_values "7" o !! "prevIndex"%string = None
    /\ Put_values "7" o !! "prevExist"%string = None
    /\ Encode_fields (Put_values "7" o) = ["ttl=1"; "value=7"]%string.
Proof.
  apply (renewal_is_unfenced_at_index_zero
           (world_of [inr (Examples.held_by "7" 0);
                      inr (Examples.written "7" 9);
                      inr (Examples.refused 105)]
                     [Examples.three_quarters])
           Examples.leader7 (Examples.held_by "7" 0)); reflexivity.
Defined.

(** X10: a lease of less than 4 ns gives no pause at all: [ttl/4] is 0, so
    the jittered sleep is 0 for every draw. *)
Theorem tiny_lease_never_sleeps (lease : Duration) (u : float32) :
  -4 < lease < 4 ->
  F32.unit_interval u ->
  sleepDuration lease u = 0.
Proof.
  intros Hsmall Hu. unfold sleepDuration, Int64.div.
  assert (Hq : Z.quot lease 4 = 0).
  { destruct (Z_lt_le_dec lease 0) as [Hneg|Hpos].
    - replace lease with (- - lease) by lia.
      rewrite Z.quot_opp_l by lia. rewrite Z.quot_small by lia. reflexivity.
    - apply Z.quot_small. lia. }
  rewrite Hq.
  destruct (factor_range u Hu) as (m & e & -> & _).
  reflexivity.
Qed.

Lemma tiny_lease_never_sleeps_witness :
  sleepDuration 3 Examples.three_quarters = 0.
Proof.
  apply tiny_lease_never_sleeps.
  - lia.
  - repeat split; reflexivity.
Defined.


(** * Properties of the loop of [run] *)

(** Running from a later point of the world is running in the world
    shifted to that point. *)
Lemma interp_shift {R} (w : World) (c d : nat) (t : list Obs)
    (p : Prog ActorE R) (r : Run) :
  interp_state (answer w) p
    (mkRun (c + calls r) (d + draws r) (t ++ trace r)) =
  let '(r', x) := interp_state (answer (shift w c d)) p r in
  (mkRun (c + calls r') (d + draws r') (t ++ trace r'), x).
Proof.
  revert r. induction p as [x|X e k IH]; intros r; [reflexivity|].
  destruct e as [X e|X e]; destruct e; cbn; rewrite <- app_assoc.
  - rewrite <- (Nat.add_succ_r c (calls r)).
    exact (IH _ (mkRun (S (calls r)) (draws r) (trace r ++ [_]))).
  - rewrite <- (Nat.add_succ_r d (draws r)).
    exact (IH _ (mkRun (calls r) (S (draws r)) (trace r ++ [_]))).
  - exact (IH _ (mkRun (calls r) (draws r) (trace r ++ [_]))).
  - exact (IH _ (mkRun (calls r) (draws r) (trace r ++ [_]))).
Qed.

(** The loop of [run], one cycle at a time. *)
Lemma run_actor_step (w : World) (n : nat) (st : State) :
  let o := cycle w st in
  let w' := shift w (fst (consumed w st)) (snd (consumed w st)) in
  trace (fst (run_actor w (S n) st)) =
    observed o
    ++ (if continues o then trace (fst (run_actor w' n (final o))) else [])
  /\ snd (run_actor w (S n) st) =
       (if continues o then snd (run_actor w' n (final o)) else final o).
Proof.
  unfold run_actor, cycle, consumed. cbn [cycles].
  unfold mbind, Prog_bind. rewrite interp_state_bind.
  destruct (interp_state (answer w) (loop st) start) as [r [st' ok]].
  cbn [fst snd observed final continues].
  destruct ok; cbn; [|by rewrite app_nil_r].
  pose proof (interp_shift w (calls r) (draws r) (trace r)
                (cycles n st') start) as Hs.
  cbn [calls draws trace start] in Hs.
  rewrite !Nat.add_0_r, app_nil_r in Hs.
  destruct r as [c d t]. cbn [calls draws trace] in *. rewrite Hs.
  destruct (interp_state _ (cycles n st') start) as [r' st'']. done.
Qed.

Lemma cycle_own_calls (w : World) (st : State) :
  Forall (own_call st) (observed (cycle w st)).
Proof.
  case_cycle w st; cbn;
    repeat (apply Forall_cons; split; [by cbn; auto|]); apply Forall_nil_2.
Qed.

Lemma cycle_errors (w : World) (st : State) :
  existsb is_transport_error (observed (cycle w st))
  = negb (continues (cycle w st)).
Proof. case_cycle w st; reflexivity. Qed.

Lemma cycle_sleeps (w : World) (st : State) :
  0 <= ttl st ->
  Int64.in_range (ttl st * 10) ->
  ttl st mod 8 = 0 ->
  F32.exact (3 * (ttl st / 8)) = true ->
  (forall n, F32.unit_interval (float32s w n)) ->
  Forall (sleep_ok (ttl st)) (observed (cycle w st)).
Proof.
  intros Hpos Hrange Hmod Hex Hdraws.
  assert (Hmul : Int64.mul (ttl st) 10 = 10 * ttl st).
  { unfold Int64.mul. rewrite wrap_in_range; [lia | done]. }
  assert (Hbound : forall u, F32.unit_interval u ->
            ttl st <= 8 * sleepDuration (ttl st) u <= 3 * ttl st).
  { intros u Hu.
    assert (H8 : ttl st = 8 * (ttl st / 8)).
    { pose proof (Z.div_mod (ttl st) 8 ltac:(lia)). lia. }
    pose proof (sleepDuration_bounds (ttl st / 8) u) as Hb.
    rewrite <- H8 in Hb.
    unfold Int64.in_range, Int64.min_int, Int64.max_int in *.
    specialize (Hb ltac:(lia) ltac:(lia) Hex Hu). lia. }
  case_cycle w st; cbn [app];
    repeat (apply Forall_cons; split;
            [first [exact I | left; exact Hmul | right; apply Hbound, Hdraws]|]);
    apply Forall_nil_2.
Qed.

Lemma own_call_same (st st' : State) (o : Obs) :
  key st' = key st -> id st' = id st -> own_call st' o -> own_call st o.
Proof. intros Hk Hi. destruct o as [[]| | |]; cbn; rewrite ?Hk, ?Hi; done. Qed.

(** X11: over any number of cycles the loop of [run] changes nothing of
    the state but [leader]: the keys the actor uses, its id and its lease
    are those it started with. *)
Theorem run_keeps_identity (w : World) (n : nat) (st : State) :
  key (snd (run_actor w n st)) = key st
  /\ id (snd (run_actor w n st)) = id st
  /\ ttl (snd (run_actor w n st)) = ttl st.
Proof.
  revert w st. induction n as [|n IH]; intros w st; [done|].
  destruct (run_actor_step w n st) as [_ ->].
  destruct (cycle_keeps_identity w st) as (Hk & Hi & Ht).
  destruct (continues (cycle w st)); [|done].
  destruct (IH (shift w (fst (consumed w st)) (snd (consumed w st)))
              (final (cycle w st))) as (Hk' & Hi' & Ht').
  rewrite Hk', Hi', Ht'. done.
Qed.

(** X12: over any number of cycles, every call the actor makes on the
    store is the [Get] of its own leader key without [wait], or a [Put] of
    its own id on its leader key or its broadcast key: it never issues a
    [Delete], never waits on a key, and never writes another value or
    another key. *)
Theorem run_call_discipline (w : World) (n : nat) (st : State) :
  Forall (own_call st) (trace (fst (run_actor w n st))).
Proof.
  revert w st. induction n as [|n IH]; intros w st; [apply Forall_nil_2|].
  destruct (run_actor_step w n st) as [-> _].
  apply Forall_app. split; [apply cycle_own_calls|].
  destruct (continues (cycle w st)); [|apply Forall_nil_2].
  destruct (cycle_keeps_identity w st) as (Hk & Hi & _).
  eapply Forall_impl; [apply IH|].
  intros o. by apply own_call_same.
Qed.

(** X13: for a lease that is a non-negative multiple of 8 ns, whose three
    eighths float32 holds exactly and whose tenfold fits an int64, and for
    draws of the unit interval, every sleep of the actor over any number
    of cycles is the stall of ten leases or a pause between one eighth and
    three eighths of the lease. *)
Theorem run_sleeps (w : World) (n : nat) (st : State) :
  0 <= ttl st ->
  Int64.in_range (ttl st * 10) ->
  ttl st mod 8 = 0 ->
  F32.exact (3 * (ttl st / 8)) = true ->
  (forall i, F32.unit_interval (float32s w i)) ->
  Forall (sleep_ok (ttl st)) (trace (fst (run_actor w n st))).
Proof.
  revert w st. induction n as [|n IH]; intros w st Hpos Hrange Hmod Hex Hdraws;
    [apply Forall_nil_2|].
  destruct (run_actor_step w n st) as [-> _].
  apply Forall_app. split; [by apply cycle_sleeps|].
  destruct (continues (cycle w st)); [|apply Forall_nil_2].
  destruct (cycle_keeps_identity w st) as (_ & _ & Ht).
  rewrite <- Ht. apply IH; rewrite ?Ht; try done.
  intros i. apply Hdraws.
Qed.

Lemma run_sleeps_witness :
  Forall (sleep_ok 1000000000)
    (trace (fst (run_actor
       (world_of [inr Examples.absent; inr (Examples.written "7" 4);
                  inr (Examples.written "7" 5); inr (Examples.held_by "7" 5);
                  inr (Examples.refused 101)]
                 [Examples.three_quarters; Examples.eighth;
                  Examples.below_one])
       3 Examples.actor7))).
Proof.
  apply (run_sleeps
           (world_of [inr Examples.absent; inr (Examples.written "7" 4);
                      inr (Examples.written "7" 5);
                      inr (Examples.held_by "7" 5);
                      inr (Examples.refused 101)]
                     [Examples.three_quarters; Examples.eighth;
                      Examples.below_one])
           3 Examples.actor7).
  - vm_compute. discriminate.
  - vm_compute. split; discriminate.
  - reflexivity.
  - vm_compute. reflexivity.
  - intros [|[|[|[|i]]]]; vm_compute; repeat split; reflexivity.
Defined.

(** X14: over any number of cycles at most one call on the store fails in
    transport, and it is the last thing the actor does but for the line
    that logs the error: everything before was answered. *)
Theorem run_stops_at_first_error (w : World) (n : nat) (st : State) :
  exists good ending,
    trace (fst (run_actor w n st)) = good ++ ending
    /\ existsb is_transport_error good = false
    /\ (ending = []
        \/ exists c err,
             ending = [OStore c (inl err);
                       OPrint (id st) "error: %s" [err]]).
Proof.
  revert w st. induction n as [|n IH]; intros w st.
  { exists [], []. split; [reflexivity|]. split; [reflexivity|]. by left. }
  destruct (run_actor_step w n st) as [-> _].
  pose proof (cycle_errors w st) as Herr.
  destruct (continues (cycle w st)) eqn:Hcont.
  - destruct (IH (shift w (fst (consumed w st)) (snd (consumed w st)))
                (final (cycle w st))) as (good & ending & -> & Hgood & Hend).
    destruct (cycle_keeps_identity w st) as (_ & Hi & _).
    exists (observed (cycle w st) ++ good), ending.
    split; [by rewrite app_assoc|].
    split; [rewrite existsb_app, Herr, Hgood; reflexivity|].
    rewrite Hi in Hend. exact Hend.
  - destruct (cycle_stop_shape w st Hcont)
      as (before & c & err & -> & Hbefore & _).
    exists before, [OStore c (inl err); OPrint (id st) "error: %s" [err]].
    split; [by rewrite app_nil_r|]. split; [exact Hbefore|].
    right. by exists c, err.
Qed.


(** * The ids [run] gives the actors *)

Lemma to_int_not_nil (z : Z) :
  Z.to_int z <> Decimal.Pos Decimal.Nil /\ Z.to_int z <> Decimal.Neg Decimal.Nil.
Proof.
  pose proof (DecimalZ.of_to z) as Hz.
  split; intros Heq; rewrite Heq in Hz; cbn in Hz; subst z; discriminate.
Qed.

(** The decimal numerals of two different integers differ. *)
Lemma Itoa_inj (i j : Z) : Itoa i = Itoa j -> i = j.
Proof.
  unfold Itoa. intros Heq.
  apply (f_equal NilZero.int_of_string) in Heq.
  destruct (to_int_not_nil i) as [Hi1 Hi2].
  destruct (to_int_not_nil j) as [Hj1 Hj2].
  rewrite !NilZero.isi in Heq by assumption.
  apply DecimalZ.to_int_inj. congruence.
Qed.

(** X15: actors that [run] starts with different numbers have different
    ids, so an actor never takes the value another actor wrote for its
    own: when its [Get] finds the id of another actor under the leader
    key, it writes nothing, keeps its state and goes on. *)
Theorem actors_do_not_share_ids (shard : string) (i j : Z) (w : World)
    (r0 : EtcdResponse) :
  i <> j ->
  store w 0 (CallGet (shard +:+ "-leader") (Option.mk 0 false 0 0)) = inr r0 ->
  ErrorCode r0 = 0 ->
  Value (node r0) = id (initial_state shard j) ->
  id (initial_state shard i) <> id (initial_state shard j)
  /\ List.filter is_write (observed (cycle w (initial_state shard i))) = []
  /\ final (cycle w (initial_state shard i)) = initial_state shard i
  /\ continues (cycle w (initial_state shard i)) = true.
Proof.
  intros Hij Hget Hcode Hval.
  assert (Hid : id (initial_state shard i) <> id (initial_state shard j)).
  { cbn. intros Heq. by apply Hij, Itoa_inj. }
  split; [exact Hid|].
  rewrite (cycle_other_leader w (initial_state shard i) r0 Hget Hcode)
    by (rewrite Hval; congruence).
  done.
Qed.

Lemma actors_do_not_share_ids_witness :
  final (cycle (world_of [inr (Examples.held_by "12" 8)] [Examples.eighth])
               (initial_state "shard-5" 7))
  = initial_state "shard-5" 7.
Proof.
  eapply (actors_do_not_share_ids "shard-5" 7 12
            (world_of [inr (Examples.held_by "12" 8)] [Examples.eighth])
            (Examples.held_by "12" 8)).
  - discriminate.
  - reflexivity.
  - reflexivity.
  - reflexivity.
Defined.
